(** * Zero-order robust MPC (ZORO): covariance propagation and tightening

    A shallow embedding of [zoro_acados.py] and [zoro_acados_utils.py]:
    the symmetric-matrix codec ([sym_mat2vec], [vec2sym_mat]), the
    covariance propagation ([P_propagation], [propagate],
    [P_propagation_with_y]), the linear model of [export_linear_model] and
    [transform_ocp], and the outer loop [ZoroAcados.solve] with its
    statistics bookkeeping.

    Numbers.  The program computes in IEEE doubles.  The embedding is
    written over any type of scalars with the program's operations
    ([Scalar]), of which nothing is assumed: [FloatScalar] is the doubles,
    [ZScalar] the integers.  A lemma that needs the laws of exact arithmetic
    says so with [Exact]; it then speaks of the program as far as its
    operations do not round.  The lemmas about where entries are stored,
    copied and passed on hold of every [Scalar], the doubles included.  The
    order in which numpy adds the terms of a matrix product is not fixed by
    the source; [sum_n] adds them from the last to the first, and the run on
    doubles below has sums in which at most one term is not zero.

    Shapes.  A numpy array carries its shape; [mat] does too.  numpy raises
    on operands of incompatible shapes; the operations below are total and
    agree with numpy on compatible shapes, which is what the lemmas assume. *)

From Stdlib Require Import ZArith Ring Lia Floats.
From stdpp Require Import base option list gmap strings pretty.

(** ** Scalars *)

(** The scalars of the arrays: a type of numbers with the operations the
    program uses.  Nothing is assumed of the operations. *)
Record Scalar := {
  carrier :> Type;
  s_zero : carrier;
  s_one : carrier;
  s_add : carrier -> carrier -> carrier;
  s_mul : carrier -> carrier -> carrier;
  s_sub : carrier -> carrier -> carrier;
  s_opp : carrier -> carrier;
  s_ltb : carrier -> carrier -> bool
}.

Arguments s_zero {_}.
Arguments s_one {_}.
Arguments s_add {_} _ _.
Arguments s_mul {_} _ _.
Arguments s_sub {_} _ _.
Arguments s_opp {_} _.
Arguments s_ltb {_} _ _.

Declare Scope scalar_scope.
Delimit Scope scalar_scope with S.
Notation "0" := s_zero : scalar_scope.
Notation "1" := s_one : scalar_scope.
Infix "+" := s_add : scalar_scope.
Infix "*" := s_mul : scalar_scope.
Infix "-" := s_sub : scalar_scope.

(** Exact arithmetic: the operations form a commutative ring.  The lemmas
    that compute with the entries of arrays assume it; the lemmas about
    where entries are stored and copied do not. *)
Class Exact (R : Scalar) : Prop :=
  scalar_ring :
    ring_theory (@s_zero R) (@s_one R) (@s_add R) (@s_mul R) (@s_sub R) (@s_opp R) eq.

(** The integers. *)
Definition ZScalar : Scalar :=
  {| carrier := Z; s_zero := 0%Z; s_one := 1%Z; s_add := Z.add; s_mul := Z.mul;
     s_sub := Z.sub; s_opp := Z.opp; s_ltb := Z.ltb |}.

#[export] Instance ZScalar_exact : Exact ZScalar := Zth.


(** ** Arrays *)

(** A one-dimensional array is the list of its entries. *)
Abbreviation vec R := (list (carrier R)).

Section Arrays.
Context {R : Scalar}.

(** A two-dimensional array: its shape and its rows. *)
Record mat : Type := Mat { rows : nat; cols : nat; data : list (list R) }.

(** [M[i, j]]; the default is never read on indices within the shape. *)
Definition mget (M : mat) (i j : nat) : R :=
  default 0%S (data M !! i ≫= (.!! j)).

Definition vget (v : vec R) (i : nat) : R := default 0%S (v !! i).

Definition mk_vec (n : nat) (f : nat -> R) : vec R := f <$> seq 0 n.

Definition mk_mat (r c : nat) (f : nat -> nat -> R) : mat :=
  Mat r c ((fun i => mk_vec c (f i)) <$> seq 0 r).

(** The rows of [M] are as many and as long as its shape says. *)
Definition wf_mat (M : mat) : Prop :=
  length (data M) = rows M /\ Forall (fun row => length row = cols M) (data M).

Definition has_shape (r c : nat) (M : mat) : Prop :=
  wf_mat M /\ rows M = r /\ cols M = c.

(** [sum_n n f] is f 0 + (f 1 + ... + (f (n-1) + 0)). *)
Definition sum_n (n : nat) (f : nat -> R) : R :=
  foldr (fun k acc => (f k + acc)%S) 0%S (seq 0 n).

(** [np.zeros((r, c))], [np.zeros((n,))], [np.eye(n)], [np.diag(v)]. *)
Definition zeros_mat (r c : nat) : mat := mk_mat r c (fun _ _ => 0%S).
Definition zeros (n : nat) : vec R := replicate n 0%S.
Definition eye (n : nat) : mat :=
  mk_mat n n (fun i j => if Nat.eqb i j then 1%S else 0%S).
Definition diag (v : vec R) : mat :=
  mk_mat (length v) (length v) (fun i j => if Nat.eqb i j then vget v i else 0%S).

(** [A + B], [A @ B] and [A.T] on two-dimensional arrays. *)
Definition mat_add (A B : mat) : mat :=
  mk_mat (rows A) (cols A) (fun i j => (mget A i j + mget B i j)%S).
Definition matmul (A B : mat) : mat :=
  mk_mat (rows A) (cols B)
    (fun i j => sum_n (cols A) (fun k => (mget A i k * mget B k j)%S)).
Definition transpose (A : mat) : mat :=
  mk_mat (cols A) (rows A) (fun i j => mget A j i).

(** [A @ v], [u + v] and [u - v] with one-dimensional [u], [v]. *)
Definition matvec (A : mat) (v : vec R) : vec R :=
  mk_vec (rows A) (fun i => sum_n (cols A) (fun k => (mget A i k * vget v k)%S)).
Definition vec_add (u v : vec R) : vec R := zip_with s_add u v.
Definition vec_sub (u v : vec R) : vec R := zip_with s_sub u v.

(** [M[i, j] = x] for one index pair. *)
Definition mset (M : mat) (i j : nat) (x : R) : mat :=
  Mat (rows M) (cols M) (alter (fun row => <[j := x]> row) i (data M)).

(** [np.triu_indices(n, m=n)]: the index pairs of the upper triangle,
    diagonal included, row by row.  numpy returns the two coordinate arrays;
    here they are zipped. *)
Definition triu_indices (n : nat) : list (nat * nat) :=
  i ← seq 0 n; (fun j => (i, j)) <$> seq i (n - i).

(** ** zoro_acados_utils.py *)

(** [sym_mat2vec]: the three branches of the type dispatch compute the same
    index arrays; [mat[i, j]] gathers the entries at the index pairs. *)
Definition sym_mat2vec (m : mat) : vec R :=
  let nx := rows m in
  (fun ij => mget m ij.1 ij.2) <$> triu_indices nx.

(** [mat[i, j] = vec] with index arrays: one assignment per index pair,
    in order.  [swap] is for [mat.T[i, j] = vec]: [mat.T] is a view, so the
    write lands at [mat[j, i]]. *)
Definition assign_at (swap : bool) (m : mat) (idx : list (nat * nat)) (v : vec R) : mat :=
  foldl (fun acc e =>
           let '((i, j), x) := e in
           if swap then mset acc j i x else mset acc i j x)
        m (zip idx v).

(** [vec2sym_mat], as its [np.ndarray] and [torch.Tensor] branches run it: a
    zero matrix, then the two assignments.  The third branch runs the same
    statements on a casadi [SX], with casadi's own indexing and transposition;
    it is not part of this embedding. *)
Definition vec2sym_mat (v : vec R) (nx : nat) : mat :=
  let m := zeros_mat nx nx in
  let idx := triu_indices nx in
  let m := assign_at false m idx v in
  let m := assign_at true m idx v in
  m.

(** [P_propagation]: P_i+1 = A P A^T + B W B^T. *)
Definition P_propagation (P A B W : mat) : mat :=
  mat_add (matmul (matmul A P) (transpose A)) (matmul (matmul B W) (transpose B)).

(** [M.T == M] entrywise, shape included. *)
Definition symmetric (M : mat) : Prop := transpose M = M.

(** Every entry of [Z] reads as zero. *)
Definition all_zero (Z : mat) : Prop := forall i j, mget Z i j = 0%S.

End Arrays.

Arguments mat : clear implicits.

(** ** zoro_acados.py: the collaborators *)

(** [AcadosOcpSolver], the external NLP/QP solver, as far as [solve] and
    [get_solution] call it: a state machine of which nothing is assumed. *)
Record AcadosOcpSolver (R : Scalar) : Type := {
  ocp_state : Type;
  (** [get(stage, "x")], [get(stage, "u")] *)
  ocp_get_x : nat -> ocp_state -> vec R;
  ocp_get_u : nat -> ocp_state -> vec R;
  (** [set(stage, "p", value)] *)
  ocp_set_p : nat -> vec R -> ocp_state -> ocp_state;
  (** [constraints_set(stage, "lh", value)] *)
  ocp_constraints_set_lh : nat -> vec R -> ocp_state -> ocp_state;
  (** [options_set('rti_phase', phase)] *)
  ocp_options_set_rti_phase : nat -> ocp_state -> ocp_state;
  (** [solve()], which returns the status *)
  ocp_solve : ocp_state -> ocp_state * Z;
  (** [get_residuals()]: the residual norms, at least one *)
  ocp_get_residuals : ocp_state -> R * list R;
  (** [get_stats("time_tot")] *)
  ocp_get_stats_time_tot : ocp_state -> R
}.

Arguments ocp_state {R} _.
Arguments ocp_get_x {R} _ _ _.
Arguments ocp_get_u {R} _ _ _.
Arguments ocp_set_p {R} _ _ _ _.
Arguments ocp_constraints_set_lh {R} _ _ _ _.
Arguments ocp_options_set_rti_phase {R} _ _ _.
Arguments ocp_solve {R} _ _.
Arguments ocp_get_residuals {R} _ _.
Arguments ocp_get_stats_time_tot {R} _ _.

(** [AcadosSimSolver], the discrete-time sensitivity integrator. *)
Record AcadosSimSolver (R : Scalar) : Type := {
  sim_state : Type;
  sim_set_x : vec R -> sim_state -> sim_state;
  sim_set_u : vec R -> sim_state -> sim_state;
  sim_solve : sim_state -> sim_state * Z;
  sim_get_Sx : sim_state -> mat R;
  sim_get_Su : sim_state -> mat R;
  sim_get_x : sim_state -> vec R;
  sim_get_time_tot : sim_state -> R
}.

Arguments sim_state {R} _.
Arguments sim_set_x {R} _ _ _.
Arguments sim_set_u {R} _ _ _.
Arguments sim_solve {R} _ _.
Arguments sim_get_Sx {R} _ _.
Arguments sim_get_Su {R} _ _.
Arguments sim_get_x {R} _ _.
Arguments sim_get_time_tot {R} _ _.

(** The attributes of a [ZoroAcados] object that are assigned in [__init__]
    and never again, and the functions it calls.  [constraints_lh] is
    [self.ocp.constraints.lh], the nominal lower bound.  [gp_sensitivities] is
    [None] when [has_gp_model] is false.  [elapsed key i stage] stands for
    the differences of [perf_counter()] readings: the span measured for the
    section [key] in outer iteration [i] (at stage [stage], for the sections
    of the stage loop); [elapsed_total] is the span of the whole call. *)
Record ZoroAcados (R : Scalar) : Type := {
  nx : nat;
  nu : nat;
  N : nat;
  nw : nat;
  B : mat R;
  Sigma_x0 : mat R;
  Sigma_W : mat R;
  constraints_lh : vec R;
  h_tightening_jac_sig_fun : vec R -> vec R -> mat R;
  gp_sensitivities :
    option (list (vec R) -> list (vec R) * list (list (vec R)) * list (vec R));
  ocp_api : AcadosOcpSolver R;
  sim_api : AcadosSimSolver R;
  elapsed : string -> nat -> nat -> R;
  elapsed_total : R
}.

Arguments nx {R} _.
Arguments nu {R} _.
Arguments N {R} _.
Arguments nw {R} _.
Arguments B {R} _.
Arguments Sigma_x0 {R} _.
Arguments Sigma_W {R} _.
Arguments constraints_lh {R} _.
Arguments h_tightening_jac_sig_fun {R} _ _ _.
Arguments gp_sensitivities {R} _.
Arguments ocp_api {R} _.
Arguments sim_api {R} _.
Arguments elapsed {R} _ _ _ _.
Arguments elapsed_total {R} _.

(** The constants as [__init__] computes them from its arguments: the
    dimensions come from the OCP, [B] defaults to the identity and [nw] is the
    number of its columns. *)
Definition new_ZoroAcados {R : Scalar} (nx0 nu0 N0 : nat) (Sigma_x0_arg Sigma_W_arg : mat R)
    (B_arg : option (mat R)) (lh0 : vec R) (h_jac : vec R -> vec R -> mat R)
    (gp_model : option (list (vec R) -> list (vec R) * list (list (vec R)) * list (vec R)))
    (ocp0 : AcadosOcpSolver R) (sim0 : AcadosSimSolver R)
    (clock : string -> nat -> nat -> R) (clock_total : R) : ZoroAcados R :=
  let B0 := default (eye nx0) B_arg in
  {| nx := nx0; nu := nu0; N := N0; nw := cols B0; B := B0;
     Sigma_x0 := Sigma_x0_arg; Sigma_W := Sigma_W_arg; constraints_lh := lh0;
     h_tightening_jac_sig_fun := h_jac; gp_sensitivities := gp_model;
     ocp_api := ocp0; sim_api := sim0; elapsed := clock; elapsed_total := clock_total |}.

Definition has_gp_model {R : Scalar} (self : ZoroAcados R) : bool :=
  bool_decide (is_Some (gp_sensitivities self)).

(** What [solve] can raise.  [NoneOperand] stands for the error Python raises
    when an array operation meets a [None] entry of [P_bar_all] or
    [P_bar_all_vec]. *)
Inductive exn : Type :=
| SolverFailure (status : Z) (i : nat)
| UnboundLocalError
| NoneOperand.

(** ** zoro_acados.py: the object *)

Section Zoro.
Context {R : Scalar}.
Variable self : ZoroAcados R.

(** [self.solve_stats].  The dictionary under "timings" is one object, shared
    with [solve_stats_default] by the shallow [copy()]; "n_iter" and
    "timings_total" of [solve_stats_default] are never written. *)
Record SolveStats : Type := {
  n_iter : nat;
  timings_total : R;
  timings : gmap string (list R)
}.

(** The attributes [solve] reassigns or mutates. *)
Record ZoroState : Type := {
  x_hat_all : list (vec R);
  u_hat_all : list (vec R);
  y_hat_all : list (vec R);
  P_bar_all : list (option (mat R));
  P_bar_all_vec : list (option (vec R));
  P_bar_old_vec : option (vec R);
  mean : list (vec R);
  mean_dy : list (list (vec R));
  var : list (vec R);
  solve_stats : SolveStats;
  ocp_solver : ocp_state (ocp_api self);
  sim_solver : sim_state (sim_api self)
}.

Definition set_x_hat_all (f : list (vec R) -> list (vec R)) (s : ZoroState) : ZoroState :=
  {| x_hat_all := f (x_hat_all s); u_hat_all := u_hat_all s; y_hat_all := y_hat_all s;
     P_bar_all := P_bar_all s; P_bar_all_vec := P_bar_all_vec s;
     P_bar_old_vec := P_bar_old_vec s; mean := mean s; mean_dy := mean_dy s;
     var := var s; solve_stats := solve_stats s; ocp_solver := ocp_solver s;
     sim_solver := sim_solver s |}.

Definition set_u_hat_all (f : list (vec R) -> list (vec R)) (s : ZoroState) : ZoroState :=
  {| x_hat_all := x_hat_all s; u_hat_all := f (u_hat_all s); y_hat_all := y_hat_all s;
     P_bar_all := P_bar_all s; P_bar_all_vec := P_bar_all_vec s;
     P_bar_old_vec := P_bar_old_vec s; mean := mean s; mean_dy := mean_dy s;
     var := var s; solve_stats := solve_stats s; ocp_solver := ocp_solver s;
     sim_solver := sim_solver s |}.

Definition set_y_hat_all (f : list (vec R) -> list (vec R)) (s : ZoroState) : ZoroState :=
  {| x_hat_all := x_hat_all s; u_hat_all := u_hat_all s; y_hat_all := f (y_hat_all s);
     P_bar_all := P_bar_all s; P_bar_all_vec := P_bar_all_vec s;
     P_bar_old_vec := P_bar_old_vec s; mean := mean s; mean_dy := mean_dy s;
     var := var s; solve_stats := solve_stats s; ocp_solver := ocp_solver s;
     sim_solver := sim_solver s |}.

Definition set_P_bar_all (f : list (option (mat R)) -> list (option (mat R)))
  (s : ZoroState) : ZoroState :=
  {| x_hat_all := x_hat_all s; u_hat_all := u_hat_all s; y_hat_all := y_hat_all s;
     P_bar_all := f (P_bar_all s); P_bar_all_vec := P_bar_all_vec s;
     P_bar_old_vec := P_bar_old_vec s; mean := mean s; mean_dy := mean_dy s;
     var := var s; solve_stats := solve_stats s; ocp_solver := ocp_solver s;
     sim_solver := sim_solver s |}.

Definition set_P_bar_all_vec (f : list (option (vec R)) -> list (option (vec R)))
  (s : ZoroState) : ZoroState :=
  {| x_hat_all := x_hat_all s; u_hat_all := u_hat_all s; y_hat_all := y_hat_all s;
     P_bar_all := P_bar_all s; P_bar_all_vec := f (P_bar_all_vec s);
     P_bar_old_vec := P_bar_old_vec s; mean := mean s; mean_dy := mean_dy s;
     var := var s; solve_stats := solve_stats s; ocp_solver := ocp_solver s;
     sim_solver := sim_solver s |}.

Definition set_P_bar_old_vec (v : option (vec R)) (s : ZoroState) : ZoroState :=
  {| x_hat_all := x_hat_all s; u_hat_all := u_hat_all s; y_hat_all := y_hat_all s;
     P_bar_all := P_bar_all s; P_bar_all_vec := P_bar_all_vec s;
     P_bar_old_vec := v; mean := mean s; mean_dy := mean_dy s;
     var := var s; solve_stats := solve_stats s; ocp_solver := ocp_solver s;
     sim_solver := sim_solver s |}.

Definition set_gp (g : list (vec R) * list (list (vec R)) * list (vec R))
  (s : ZoroState) : ZoroState :=
  {| x_hat_all := x_hat_all s; u_hat_all := u_hat_all s; y_hat_all := y_hat_all s;
     P_bar_all := P_bar_all s; P_bar_all_vec := P_bar_all_vec s;
     P_bar_old_vec := P_bar_old_vec s; mean := g.1.1; mean_dy := g.1.2;
     var := g.2; solve_stats := solve_stats s; ocp_solver := ocp_solver s;
     sim_solver := sim_solver s |}.

Definition set_solve_stats (f : SolveStats -> SolveStats) (s : ZoroState) : ZoroState :=
  {| x_hat_all := x_hat_all s; u_hat_all := u_hat_all s; y_hat_all := y_hat_all s;
     P_bar_all := P_bar_all s; P_bar_all_vec := P_bar_all_vec s;
     P_bar_old_vec := P_bar_old_vec s; mean := mean s; mean_dy := mean_dy s;
     var := var s; solve_stats := f (solve_stats s); ocp_solver := ocp_solver s;
     sim_solver := sim_solver s |}.

Definition set_ocp_solver (f : ocp_state (ocp_api self) -> ocp_state (ocp_api self))
  (s : ZoroState) : ZoroState :=
  {| x_hat_all := x_hat_all s; u_hat_all := u_hat_all s; y_hat_all := y_hat_all s;
     P_bar_all := P_bar_all s; P_bar_all_vec := P_bar_all_vec s;
     P_bar_old_vec := P_bar_old_vec s; mean := mean s; mean_dy := mean_dy s;
     var := var s; solve_stats := solve_stats s; ocp_solver := f (ocp_solver s);
     sim_solver := sim_solver s |}.

Definition set_sim_solver (f : sim_state (sim_api self) -> sim_state (sim_api self))
  (s : ZoroState) : ZoroState :=
  {| x_hat_all := x_hat_all s; u_hat_all := u_hat_all s; y_hat_all := y_hat_all s;
     P_bar_all := P_bar_all s; P_bar_all_vec := P_bar_all_vec s;
     P_bar_old_vec := P_bar_old_vec s; mean := mean s; mean_dy := mean_dy s;
     var := var s; solve_stats := solve_stats s; ocp_solver := ocp_solver s;
     sim_solver := f (sim_solver s) |}.

(** The keys of [solve_stats_default["timings"]]. *)
Definition timings_keys : list string :=
  ["build_lin_model"; "query_nodes"; "get_gp_sensitivities"; "integrate_acados";
   "integrate_acados_python"; "integrate_get"; "integrate_set";
   "set_sensitivities"; "set_sensitivities_reshape"; "propagate_covar";
   "get_backoffs"; "get_backoffs_htj_sig"; "get_backoffs_htj_sig_matmul";
   "get_backoffs_add"; "set_tightening"; "phase_one"; "check_termination";
   "solve_qp"; "solve_qp_acados"; "total"].

(** [solve_stats_default]; its "timings" entries are the float 0.0 until
    the first [init_solve_stats] puts arrays in their place, and are not read
    before: they are arrays of length 0 here. *)
Definition solve_stats_default : SolveStats :=
  {| n_iter := 0; timings_total := 0%S;
     timings := list_to_map ((fun k => (k, [])) <$> timings_keys) |}.

(** [self.solve_stats["timings"][key][i] += d] *)
Definition timing_add (key : string) (i : nat) (d : R) (s : ZoroState) : ZoroState :=
  set_solve_stats (fun st =>
    {| n_iter := n_iter st; timings_total := timings_total st;
       timings := alter (alter (fun t => (t + d)%S) i) key (timings st) |}) s.

(** [self.solve_stats["timings"][key][i] = d] *)
Definition timing_set (key : string) (i : nat) (d : R) (s : ZoroState) : ZoroState :=
  set_solve_stats (fun st =>
    {| n_iter := n_iter st; timings_total := timings_total st;
       timings := alter (fun arr => <[i := d]> arr) key (timings st) |}) s.

(** [__init__], the attributes of the state: the arrays are allocated, the
    covariance lists hold [None] except at index 0.  [ocp0] and [sim0] are
    the freshly created solvers. *)
Definition init (ocp0 : ocp_state (ocp_api self)) (sim0 : sim_state (sim_api self))
  : ZoroState :=
  {| x_hat_all := replicate (N self + 1) (zeros (nx self));
     u_hat_all := replicate (N self) (zeros (nu self));
     y_hat_all := replicate (N self) (zeros (nx self + nu self));
     P_bar_all := <[0 := Some (Sigma_x0 self)]> (replicate (N self + 1) None);
     P_bar_all_vec :=
       <[0 := Some (sym_mat2vec (Sigma_x0 self))]> (replicate (N self + 1) None);
     P_bar_old_vec := None;
     mean := replicate (N self) (zeros (nw self));
     mean_dy := replicate (nw self) (replicate (N self) (zeros (nx self + nu self)));
     var := replicate (N self) (zeros (nw self));
     solve_stats := solve_stats_default;
     ocp_solver := ocp0;
     sim_solver := sim0 |}.

(** [init_solve_stats]: a shallow copy of the defaults, then an array of
    [max_iter] zeros under every key of the shared "timings" dictionary. *)
Definition init_solve_stats (max_iter : nat) (s : ZoroState) : ZoroState :=
  set_solve_stats (fun st =>
    {| n_iter := n_iter solve_stats_default;
       timings_total := timings_total solve_stats_default;
       timings := (fun _ => zeros max_iter) <$> timings st |}) s.

(** [arr[stage, :]] of a two-dimensional array kept as its list of rows. *)
Definition row {A : Type} (arr : list (list A)) (stage : nat) : list A :=
  default [] (arr !! stage).

(** [arr[:, stage, lo:lo+n]] of a three-dimensional array whose last axis is
    at least [lo + n] long. *)
Definition slice3 (arr : list (list (vec R))) (stage lo n : nat) : mat R :=
  Mat (length arr) n ((fun plane => take n (drop lo (row plane stage))) <$> arr).

(** [l[k]] where an array is needed: [None] when the entry is [None]. *)
Definition read {A : Type} (l : list (option A)) (k : nat) : option A :=
  mjoin (l !! k).

(** [np.reshape(A, (rows*cols), order="F")]: column after column. *)
Definition reshape_F (A : mat R) : vec R :=
  j ← seq 0 (cols A); (fun i => mget A i j) <$> seq 0 (rows A).

(** The builtin [max] over the residuals: the first of the largest. *)
Definition py_max (xs : R * list R) : R :=
  foldl (fun m x => if s_ltb m x then x else m) xs.1 xs.2.

(** The local variables of one pass through the body of the stage loop,
    with the values of [self.x_hat_all[stage,:]], [self.u_hat_all[stage,:]]
    and [self.P_bar_all_vec[stage]] that the pass reads. *)
Record StageLocals : Type := {
  x_stage : vec R;
  u_stage : vec R;
  P_vec_stage : vec R;
  A_nom : mat R;
  B_nom : mat R;
  x_nom : vec R;
  A_total : mat R;
  B_total : mat R;
  f_hat : vec R;
  dP_bar_vec : vec R;
  p : vec R;
  htj_sig : mat R;
  tightening : vec R;
  lh : vec R
}.

(** Lines 190-194 of [solve]: the delta against the retained snapshot. *)
Definition delta_P_bar_vec (stage : nat) (s : ZoroState) : option (vec R) :=
  match P_bar_old_vec s with
  | None => Some (zeros ((nx self + 1) * nx self / 2))
  | Some old => P_vec ← read (P_bar_all_vec s) stage; Some (vec_sub P_vec old)
  end.

(** The body of [for stage in range(N)] in outer iteration [i].  The result
    holds the state as the body leaves it and either the body's locals or
    the exception it raised. *)
Definition update_stage (i stage : nat) (s : ZoroState) : ZoroState * (StageLocals + exn) :=
  let x := row (x_hat_all s) stage in
  let u := row (u_hat_all s) stage in
  (* Integrate *)
  let s := set_sim_solver (fun sim => sim_set_u _ u (sim_set_x _ x sim)) s in
  let s := timing_add "integrate_set" i (elapsed self "integrate_set" i stage) s in
  let s := set_sim_solver (fun sim => (sim_solve _ sim).1) s in
  let s := timing_add "integrate_acados_python" i
             (elapsed self "integrate_acados_python" i stage) s in
  let s := timing_add "integrate_acados" i (sim_get_time_tot _ (sim_solver s)) s in
  let A_nom := sim_get_Sx _ (sim_solver s) in
  let B_nom := sim_get_Su _ (sim_solver s) in
  let x_nom := sim_get_x _ (sim_solver s) in
  let s := timing_add "integrate_get" i (elapsed self "integrate_get" i stage) s in
  (* Build linear model *)
  let A_total := mat_add A_nom (matmul (B self) (slice3 (mean_dy s) stage 0 (nx self))) in
  let B_total :=
    mat_add B_nom (matmul (B self) (slice3 (mean_dy s) stage (nx self) (nu self))) in
  let f_hat :=
    vec_sub (vec_sub (vec_add x_nom (matvec (B self) (row (mean s) stage)))
                     (matvec A_total x))
            (matvec B_total u) in
  let s := timing_add "build_lin_model" i (elapsed self "build_lin_model" i stage) s in
  (* Propagate *)
  match delta_P_bar_vec stage s with
  | None => (s, inr NoneOperand)
  | Some dP_bar_vec =>
  match read (P_bar_all s) stage with
  | None => (s, inr NoneOperand)
  | Some P =>
  let P_next :=
    P_propagation P A_total (B self) (mat_add (Sigma_W self) (diag (row (var s) stage))) in
  let s := set_P_bar_all (fun l => <[stage + 1 := Some P_next]> l) s in
  let s := set_P_bar_old_vec (read (P_bar_all_vec s) (stage + 1)) s in
  let s := set_P_bar_all_vec (fun l => <[stage + 1 := Some (sym_mat2vec P_next)]> l) s in
  let s := timing_add "propagate_covar" i (elapsed self "propagate_covar" i stage) s in
  (* Set sensitivities *)
  let A_reshape := reshape_F A_total in
  let B_reshape := reshape_F B_total in
  let s := timing_add "set_sensitivities_reshape" i
             (elapsed self "set_sensitivities_reshape" i stage) s in
  match read (P_bar_all_vec s) stage with
  | None => (s, inr NoneOperand)
  | Some P_vec =>
  let p := A_reshape ++ B_reshape ++ f_hat ++ P_vec in
  let s := set_ocp_solver (ocp_set_p _ stage p) s in
  let s := timing_add "set_sensitivities" i (elapsed self "set_sensitivities" i stage) s in
  (* Compute back off *)
  let htj_sig := h_tightening_jac_sig_fun self x P_vec in
  let s := timing_add "get_backoffs_htj_sig" i
             (elapsed self "get_backoffs_htj_sig" i stage) s in
  let htj_sig_matmul := matvec htj_sig dP_bar_vec in
  let s := timing_add "get_backoffs_htj_sig_matmul" i
             (elapsed self "get_backoffs_htj_sig_matmul" i stage) s in
  let tightening := htj_sig_matmul in
  let lh := vec_add (constraints_lh self) tightening in
  let s := timing_set "get_backoffs_add" i (elapsed self "get_backoffs_add" i stage) s in
  let s := timing_add "get_backoffs" i (elapsed self "get_backoffs" i stage) s in
  (* Set tightening *)
  let s := set_ocp_solver (ocp_constraints_set_lh _ stage lh) s in
  let s := timing_add "set_tightening" i (elapsed self "set_tightening" i stage) s in
  (s, inl {| x_stage := x; u_stage := u; P_vec_stage := P_vec;
             A_nom := A_nom; B_nom := B_nom; x_nom := x_nom; A_total := A_total;
             B_total := B_total; f_hat := f_hat; dP_bar_vec := dP_bar_vec; p := p;
             htj_sig := htj_sig; tightening := tightening; lh := lh |})
  end end end.

(** [for stage in stages: ...], with the locals of every pass. *)
Fixpoint update_stages (i : nat) (stages : list nat) (s : ZoroState)
  : ZoroState * (list StageLocals + exn) :=
  match stages with
  | [] => (s, inl [])
  | stage :: rest =>
    match update_stage i stage s with
    | (s, inr e) => (s, inr e)
    | (s, inl loc) =>
      match update_stages i rest s with
      | (s, inr e) => (s, inr e)
      | (s, inl locs) => (s, inl (loc :: locs))
      end
    end
  end.

(** Query nodes: the current iterate is read from the solver. *)
Definition query_stage (s : ZoroState) (stage : nat) : ZoroState :=
  let s := set_x_hat_all (fun l => <[stage := ocp_get_x _ stage (ocp_solver s)]> l) s in
  let s := set_u_hat_all (fun l => <[stage := ocp_get_u _ stage (ocp_solver s)]> l) s in
  set_y_hat_all
    (fun l => <[stage := row (x_hat_all s) stage ++ row (u_hat_all s) stage]> l) s.

Definition query_nodes (i : nat) (s : ZoroState) : ZoroState :=
  let s := set_ocp_solver (ocp_options_set_rti_phase _ 1) s in
  let s := foldl query_stage s (seq 0 (N self)) in
  timing_add "query_nodes" i (elapsed self "query_nodes" i 0) s.

(** GP sensitivities: evaluated once per outer iteration, if there is a
    model; otherwise [mean], [mean_dy] and [var] stay as they are. *)
Definition get_gp_sensitivities (i : nat) (s : ZoroState) : ZoroState :=
  let s :=
    match gp_sensitivities self with
    | Some gp => set_gp (gp (y_hat_all s)) s
    | None => s
    end in
  timing_add "get_gp_sensitivities" i (elapsed self "get_gp_sensitivities" i 0) s.

(** The local variables of one pass through the body of the outer loop:
    the locals of its stage loop, the status of the feedback solve and the
    residuals. *)
Record IterLocals : Type := {
  stage_locals : list StageLocals;
  status : Z;
  residuals : R * list R
}.

(** The body of [for i in range(n_iter_max)] down to its last timing
    statement; the two [if]s that end it are in [outer_loop].  [inr e] is an
    exception out of the stage loop. *)
Definition outer_iteration (i : nat) (s : ZoroState) : ZoroState * (IterLocals + exn) :=
  let s := query_nodes i s in
  let s := get_gp_sensitivities i s in
  match update_stages i (seq 0 (N self)) s with
  | (s, inr e) => (s, inr e)
  | (s, inl locs) =>
    (* Phase 1 *)
    let status := (ocp_solve _ (ocp_solver s)).2 in
    let s := set_ocp_solver (fun ocp => (ocp_solve _ ocp).1) s in
    let s := timing_add "phase_one" i (elapsed self "phase_one" i 0) s in
    (* Solve QP *)
    let s := set_ocp_solver (ocp_options_set_rti_phase _ 2) s in
    let status := (ocp_solve _ (ocp_solver s)).2 in
    let s := set_ocp_solver (fun ocp => (ocp_solve _ ocp).1) s in
    let s := timing_add "solve_qp" i (elapsed self "solve_qp" i 0) s in
    let s := timing_add "solve_qp_acados" i (ocp_get_stats_time_tot _ (ocp_solver s)) s in
    (* Check termination *)
    let residuals := ocp_get_residuals _ (ocp_solver s) in
    let s := timing_add "check_termination" i (elapsed self "check_termination" i 0) s in
    let s := timing_add "total" i (elapsed self "total" i 0) s in
    (s, inl {| stage_locals := locs; status := status; residuals := residuals |})
  end.

(** How the loop is left: [Returned last] by exhaustion or [break], with the
    binding of the loop variable ([None] if no iteration bound it), or
    [Raised e]. *)
Inductive loop_exit : Type :=
| Returned (last : option nat)
| Raised (e : exn).

(** [for i in its: ...]: the body, then [if status != 0: raise ...] and
    [if max(residuals) < tol_nlp: break].  [last] is the binding of [i] so
    far.  The result lists the locals of the iterations that reached the
    status check. *)
Fixpoint outer_loop (tol_nlp : R) (its : list nat) (last : option nat) (s : ZoroState)
  : ZoroState * list IterLocals * loop_exit :=
  match its with
  | [] => (s, [], Returned last)
  | i :: rest =>
    match outer_iteration i s with
    | (s, inr e) => (s, [], Raised e)
    | (s, inl it) =>
      if negb (Z.eqb (status it) 0) then (s, [it], Raised (SolverFailure (status it) i))
      else if s_ltb (py_max (residuals it)) tol_nlp then (s, [it], Returned (Some i))
      else
        match outer_loop tol_nlp rest (Some i) s with
        | (s, trace, r) => (s, it :: trace, r)
        end
    end
  end.

(** What a call of [solve] leaves: the object's state, the locals of the
    iterations run, and the exception if it raised. *)
Record SolveResult : Type := {
  final : ZoroState;
  trace : list IterLocals;
  raised : option exn
}.

(** [solve(tol_nlp, n_iter_max)] for [n_iter_max >= 0] (a negative
    [n_iter_max] fails in [np.zeros]).  After the loop, [i + 1] reads the
    loop variable. *)
Definition solve (tol_nlp : R) (n_iter_max : nat) (s : ZoroState) : SolveResult :=
  let s := init_solve_stats n_iter_max s in
  match outer_loop tol_nlp (seq 0 n_iter_max) None s with
  | (s, trace, Raised e) => {| final := s; trace := trace; raised := Some e |}
  | (s, trace, Returned None) =>
    {| final := s; trace := trace; raised := Some UnboundLocalError |}
  | (s, trace, Returned (Some i)) =>
    let s := set_solve_stats (fun st =>
               {| n_iter := i + 1; timings_total := timings_total st;
                  timings := timings st |}) s in
    let s := set_solve_stats (fun st =>
               {| n_iter := n_iter st; timings_total := elapsed_total self;
                  timings := timings st |}) s in
    {| final := s; trace := trace; raised := None |}
  end.

(** [get_solution] *)
Definition get_solution (s : ZoroState)
  : list (vec R) * list (vec R) * list (option (mat R)) :=
  let X := replicate (N self + 1) (zeros (nx self)) in
  let U := replicate (N self) (zeros (nu self)) in
  let XU :=
    foldl (fun XU i =>
             (<[i := ocp_get_x _ i (ocp_solver s)]> XU.1,
              <[i := ocp_get_u _ i (ocp_solver s)]> XU.2))
          (X, U) (seq 0 (N self)) in
  let X := <[N self := ocp_get_x _ (N self) (ocp_solver s)]> XU.1 in
  (X, XU.2, P_bar_all s).

(** [ZoroAcadosData] *)
Record ZoroAcadosData : Type := {
  data_n_iter : nat;
  sol_x : list (vec R);
  sol_u : list (vec R);
  sol_P : list (option (mat R));
  data_timings_total : R;
  data_timings : gmap string (list R)
}.

(** [get_solve_stats]: every array under "timings" is cut to its first
    [n_iter] entries, in place. *)
Definition get_solve_stats (s : ZoroState) : ZoroState * ZoroAcadosData :=
  let '(X, U, P) := get_solution s in
  let s := set_solve_stats (fun st =>
             {| n_iter := n_iter st; timings_total := timings_total st;
                timings := take (n_iter st) <$> timings st |}) s in
  (s, {| data_n_iter := n_iter (solve_stats s); sol_x := X; sol_u := U; sol_P := P;
         data_timings_total := timings_total (solve_stats s);
         data_timings := timings (solve_stats s) |}).

End Zoro.

Arguments x_hat_all {R self} _.
Arguments u_hat_all {R self} _.
Arguments y_hat_all {R self} _.
Arguments P_bar_all {R self} _.
Arguments P_bar_all_vec {R self} _.
Arguments P_bar_old_vec {R self} _.
Arguments mean {R self} _.
Arguments mean_dy {R self} _.
Arguments var {R self} _.
Arguments solve_stats {R self} _.
Arguments ocp_solver {R self} _.
Arguments sim_solver {R self} _.
Arguments final {R self} _.
Arguments trace {R self} _.
Arguments raised {R self} _.
Arguments SolveStats : clear implicits.
Arguments StageLocals : clear implicits.
Arguments IterLocals : clear implicits.
Arguments ZoroAcadosData : clear implicits.

(** ** Predicates on states, for the lemmas *)

Section ZoroPredicates.
Context {R : Scalar}.
Variable self : ZoroAcados R.

(** The covariance lists have their [N + 1] entries and start with
    [Sigma_x0]: what [__init__] establishes and [solve] keeps. *)
Definition wf_state (s : ZoroState self) : Prop :=
  length (P_bar_all s) = N self + 1 /\
  length (P_bar_all_vec s) = N self + 1 /\
  P_bar_all s !! 0 = Some (Some (Sigma_x0 self)) /\
  P_bar_all_vec s !! 0 = Some (Some (sym_mat2vec (Sigma_x0 self))).

(** [mean] and [mean_dy] are the zero arrays that [__init__] allocates. *)
Definition zero_gp (s : ZoroState self) : Prop :=
  mean s = replicate (N self) (zeros (nw self)) /\
  mean_dy s = replicate (nw self) (replicate (N self) (zeros (nx self + nu self))).

(** The attributes that the stage loop only reads. *)
Definition same_inputs (s s' : ZoroState self) : Prop :=
  x_hat_all s' = x_hat_all s /\ u_hat_all s' = u_hat_all s /\
  y_hat_all s' = y_hat_all s /\ mean s' = mean s /\ mean_dy s' = mean_dy s /\
  var s' = var s /\ n_iter (solve_stats s') = n_iter (solve_stats s) /\
  timings_total (solve_stats s') = timings_total (solve_stats s).

(** "n_iter" and "timings_total" of [self.solve_stats]. *)
Definition solve_stats_scalars (s : ZoroState self) : nat * R :=
  (n_iter (solve_stats s), timings_total (solve_stats s)).

(** The covariance that stage [stage] computes from [P]. *)
Definition P_next (s : ZoroState self) (stage : nat) (P : mat R) (loc : StageLocals R)
  : mat R :=
  P_propagation P (A_total loc) (B self)
    (mat_add (Sigma_W self) (diag (row (var s) stage))).

(** The snapshot that stage [stage] of a stage loop started in [s] finds. *)
Definition snapshot_at (s : ZoroState self) (stage : nat) : option (vec R) :=
  match stage with
  | 0 => P_bar_old_vec s
  | S _ => read (P_bar_all_vec s) stage
  end.

(** What the locals of a pass at [stage] are, in terms of the attributes
    that the stage loop only reads. *)
Record locals_post (stage : nat) (s : ZoroState self) (loc : StageLocals R) : Prop := {
  loc_x_stage : x_stage loc = row (x_hat_all s) stage;
  loc_u_stage : u_stage loc = row (u_hat_all s) stage;
  loc_A_total :
    A_total loc =
    mat_add (A_nom loc) (matmul (B self) (slice3 (mean_dy s) stage 0 (nx self)));
  loc_B_total :
    B_total loc =
    mat_add (B_nom loc) (matmul (B self) (slice3 (mean_dy s) stage (nx self) (nu self)));
  loc_f_hat :
    f_hat loc =
    vec_sub (vec_sub (vec_add (x_nom loc) (matvec (B self) (row (mean s) stage)))
                     (matvec (A_total loc) (x_stage loc)))
            (matvec (B_total loc) (u_stage loc));
  loc_p :
    p loc =
    reshape_F (A_total loc) ++ reshape_F (B_total loc) ++ f_hat loc ++ P_vec_stage loc;
  loc_htj_sig :
    htj_sig loc = h_tightening_jac_sig_fun self (x_stage loc) (P_vec_stage loc);
  loc_tightening : tightening loc = matvec (htj_sig loc) (dP_bar_vec loc);
  loc_lh : lh loc = vec_add (constraints_lh self) (tightening loc)
}.

(** One pass through the body of the stage loop, from [s] to [s'] with the
    locals [loc], when [P] and [P_vec] are the entries at [stage]. *)
Record stage_post (stage : nat) (s : ZoroState self) (P : mat R) (P_vec : vec R)
    (s' : ZoroState self) (loc : StageLocals R) : Prop := {
  post_locals : locals_post stage s loc;
  post_P_vec_stage : P_vec_stage loc = P_vec;
  post_dP_bar_vec :
    dP_bar_vec loc =
    match P_bar_old_vec s with
    | None => zeros ((nx self + 1) * nx self / 2)
    | Some old => vec_sub P_vec old
    end;
  post_P_bar_all :
    P_bar_all s' = <[stage + 1 := Some (P_next s stage P loc)]> (P_bar_all s);
  post_P_bar_all_vec :
    P_bar_all_vec s' =
    <[stage + 1 := Some (sym_mat2vec (P_next s stage P loc))]> (P_bar_all_vec s);
  post_P_bar_old_vec : P_bar_old_vec s' = read (P_bar_all_vec s) (stage + 1);
  post_ocp_solver :
    ocp_solver s' =
    ocp_constraints_set_lh _ stage (lh loc) (ocp_set_p _ stage (p loc) (ocp_solver s));
  post_same_inputs : same_inputs s s'
}.

(** The first [n] passes of a stage loop, from [s] to [s'] with the locals
    [locs]. *)
Record sweep_post (n : nat) (s s' : ZoroState self) (locs : list (StageLocals R))
    : Prop := {
  sweep_length : length locs = n;
  sweep_wf : wf_state s';
  sweep_same_inputs : same_inputs s s';
  sweep_rest :
    forall k, n < k ->
      P_bar_all s' !! k = P_bar_all s !! k /\
      P_bar_all_vec s' !! k = P_bar_all_vec s !! k;
  sweep_P_bar_old_vec : P_bar_old_vec s' = snapshot_at s n;
  sweep_chain :
    forall k loc, locs !! k = Some loc ->
      exists P,
        P_bar_all s' !! k = Some (Some P) /\
        P_bar_all s' !! (k + 1) = Some (Some (P_next s k P loc)) /\
        P_bar_all_vec s' !! (k + 1) = Some (Some (sym_mat2vec (P_next s k P loc)));
  sweep_delta :
    forall k loc, locs !! k = Some loc ->
      P_bar_all_vec s' !! k = Some (Some (P_vec_stage loc)) /\
      dP_bar_vec loc =
      match snapshot_at s k with
      | None => zeros ((nx self + 1) * nx self / 2)
      | Some old => vec_sub (P_vec_stage loc) old
      end;
  sweep_locals : forall k loc, locs !! k = Some loc -> locals_post k s loc
}.

(** [max(residuals) < tol_nlp] *)
Definition converged (tol_nlp : R) (it : IterLocals R) : bool :=
  s_ltb (py_max (residuals it)) tol_nlp.

(** One pass through the body of the outer loop, from [s] to [s'] with the
    locals [it]. *)
Record iter_post (s s' : ZoroState self) (it : IterLocals R) : Prop := {
  iter_wf : wf_state s';
  iter_n_iter : n_iter (solve_stats s') = n_iter (solve_stats s);
  iter_timings_total : timings_total (solve_stats s') = timings_total (solve_stats s);
  iter_length : length (stage_locals it) = N self;
  iter_P_bar_old_vec : P_bar_old_vec s' = snapshot_at s (N self);
  iter_chain :
    forall k loc, stage_locals it !! k = Some loc ->
      exists P,
        P_bar_all s' !! k = Some (Some P) /\
        P_bar_all s' !! (k + 1) = Some (Some (P_next s' k P loc)) /\
        P_bar_all_vec s' !! (k + 1) = Some (Some (sym_mat2vec (P_next s' k P loc)));
  iter_delta :
    forall k loc, stage_locals it !! k = Some loc ->
      P_bar_all_vec s' !! k = Some (Some (P_vec_stage loc)) /\
      dP_bar_vec loc =
      match snapshot_at s k with
      | None => zeros ((nx self + 1) * nx self / 2)
      | Some old => vec_sub (P_vec_stage loc) old
      end;
  iter_locals : forall k loc, stage_locals it !! k = Some loc -> locals_post k s' loc;
  iter_gp :
    gp_sensitivities self = None ->
    mean s' = mean s /\ mean_dy s' = mean_dy s /\ var s' = var s
}.

(** A run of the outer loop over [its], from [s] to [s'] with the locals
    [tr] of the iterations run, left by [ex]. *)
Record loop_post (tol_nlp : R) (its : list nat) (last0 : option nat)
    (s s' : ZoroState self) (tr : list (IterLocals R)) (ex : loop_exit) : Prop := {
  loop_wf : wf_state s';
  loop_n_iter : n_iter (solve_stats s') = n_iter (solve_stats s);
  loop_timings_total : timings_total (solve_stats s') = timings_total (solve_stats s);
  loop_gp :
    gp_sensitivities self = None ->
    mean s' = mean s /\ mean_dy s' = mean_dy s /\ var s' = var s;
  loop_length : length tr <= length its;
  loop_nonempty : its <> [] -> tr <> [];
  loop_first : forall it, head tr = Some it -> exists s1, iter_post s s1 it;
  loop_last : forall it, last tr = Some it -> exists s0, iter_post s0 s' it;
  loop_all :
    forall it, it ∈ tr ->
      exists sa sb,
        iter_post sa sb it /\
        (gp_sensitivities self = None -> mean sb = mean s /\ mean_dy sb = mean_dy s);
  loop_consecutive :
    forall k it it', tr !! k = Some it -> tr !! (k + 1) = Some it' ->
      exists sa sb sc, iter_post sa sb it /\ iter_post sb sc it';
  loop_earlier :
    forall k it, tr !! k = Some it -> k + 1 < length tr ->
      status it = 0%Z /\ converged tol_nlp it = false;
  loop_exit_how :
    match ex with
    | Raised e =>
      exists it i,
        last tr = Some it /\ its !! (length tr - 1) = Some i /\
        status it <> 0%Z /\ e = SolverFailure (status it) i
    | Returned l =>
      (tr = [] /\ l = last0) \/
      (exists it i,
         last tr = Some it /\ its !! (length tr - 1) = Some i /\
         status it = 0%Z /\ l = Some i /\
         (converged tol_nlp it = true \/
          (converged tol_nlp it = false /\ length tr = length its)))
    end
}.

End ZoroPredicates.

Arguments wf_state {R self} _.
Arguments zero_gp {R self} _.
Arguments solve_stats_scalars {R self} _.
Arguments same_inputs {R self} _ _.
Arguments snapshot_at {R self} _ _.
Arguments converged {R} _ _.

(** ** A small instance

    One state and one control ([nx = nu = 1]), two stages, [Sigma_x0] and
    [Sigma_W] both [[1]], [B] left to its default, the nominal bound
    [lh = [0]], a constraint Jacobian that is constantly [[1]], no GP model
    and every measured time span 1.  The solver
    counts its [solve()] calls and reports the count as the state iterate, so
    the linearization changes from one outer iteration to the next; the
    integrator returns [Sx = [[1 + x]]], [Su = [[1]]] and the state it was
    given.  [status_of c] and [residual_of c] are the status of the call
    numbered [c] and the residual after [c] calls: the feedback solve of
    outer iteration [i] of a first [solve] is the call numbered [2 i + 1]. *)

Definition demo_ocp (status_of : nat -> Z) (residual_of : nat -> Z)
  : AcadosOcpSolver ZScalar :=
  {| ocp_state := nat;
     ocp_get_x := fun _ c => [Z.of_nat c] : vec ZScalar;
     ocp_get_u := fun _ _ => [0%Z] : vec ZScalar;
     ocp_set_p := fun _ (_ : vec ZScalar) c => c;
     ocp_constraints_set_lh := fun _ (_ : vec ZScalar) c => c;
     ocp_options_set_rti_phase := fun _ c => c;
     ocp_solve := fun c => (S c, status_of c);
     ocp_get_residuals := fun c => (residual_of c : ZScalar, []);
     ocp_get_stats_time_tot := fun _ => 0%Z : ZScalar |}.

Definition demo_sim : AcadosSimSolver ZScalar :=
  {| sim_state := vec ZScalar * vec ZScalar;
     sim_set_x := fun (x : vec ZScalar) st => (x, st.2);
     sim_set_u := fun (u : vec ZScalar) st => (st.1, u);
     sim_solve := fun st => (st, 0%Z);
     sim_get_Sx := fun st => Mat (R:=ZScalar) 1 1 [[(1 + default 0 (st.1 !! 0%nat))%Z]];
     sim_get_Su := fun _ => Mat (R:=ZScalar) 1 1 [[1%Z]];
     sim_get_x := fun st => st.1 : vec ZScalar;
     sim_get_time_tot := fun _ => 0%Z : ZScalar |}.

Definition demo (status_of : nat -> Z) (residual_of : nat -> Z) : ZoroAcados ZScalar :=
  new_ZoroAcados (R:=ZScalar) 1 1 2
    (Mat (R:=ZScalar) 1 1 [[1%Z]]) (Mat (R:=ZScalar) 1 1 [[1%Z]]) None
    [0%Z]
    (fun _ _ => Mat (R:=ZScalar) 1 1 [[1%Z]])
    None
    (demo_ocp status_of residual_of) demo_sim
    (fun _ _ _ => 1%Z) 7%Z.

(** The solver never fails and the residual stays at 1. *)
Definition demo_ok : ZoroAcados ZScalar := demo (fun _ => 0%Z) (fun _ => 1%Z).

(** The feedback solve of outer iteration 1 returns status 4. *)
Definition demo_fail : ZoroAcados ZScalar :=
  demo (fun c => if Nat.eqb c 3 then 4%Z else 0%Z) (fun _ => 1%Z).

(** The newly constructed objects. *)
Definition demo_ok_new : ZoroState demo_ok := init demo_ok 0 ([], []).
Definition demo_fail_new : ZoroState demo_fail := init demo_fail 0 ([], []).

(** The locals of stage [k] of outer iteration [i] of a call. *)
Definition stage_local {R : Scalar} {self : ZoroAcados R} (r : SolveResult self)
  (i k : nat) : option (StageLocals R) :=
  it ← trace r !! i; stage_locals it !! k.

(** The delta that stage [k] of outer iteration [i] used, and the covariance
    vector [P_bar_all_vec[k]] that it read. *)
Definition delta_used {R : Scalar} {self : ZoroAcados R} (r : SolveResult self)
  (i k : nat) : option (vec R) :=
  dP_bar_vec <$> stage_local r i k.
Definition covariance_vec_read {R : Scalar} {self : ZoroAcados R} (r : SolveResult self)
  (i k : nat) : option (vec R) :=
  P_vec_stage <$> stage_local r i k.

(** Three outer iterations on the new object; two outer iterations, and the
    object as they leave it, ready for a second call. *)
Definition demo_ok_run3 : SolveResult demo_ok := solve demo_ok (0%Z : ZScalar) 3 demo_ok_new.
Definition demo_ok_after_first : ZoroState demo_ok :=
  final (solve demo_ok (0%Z : ZScalar) 2 demo_ok_new).
Definition demo_ok_second : SolveResult demo_ok :=
  solve demo_ok (0%Z : ZScalar) 1 demo_ok_after_first.

(** Small symmetric matrices, and a transition and a noise matrix. *)
Definition demo_M : mat ZScalar := Mat (R:=ZScalar) 3 3 [[1; 2; 3]; [2; 4; 5]; [3; 5; 6]]%Z.
Definition demo_P : mat ZScalar := Mat (R:=ZScalar) 2 2 [[2; 1]; [1; 3]]%Z.
Definition demo_W : mat ZScalar := Mat (R:=ZScalar) 1 1 [[5]]%Z.
Definition demo_A : mat ZScalar := Mat (R:=ZScalar) 2 2 [[1; 2]; [0; 1]]%Z.
Definition demo_B : mat ZScalar := Mat (R:=ZScalar) 2 1 [[1]; [2]]%Z.

(** The state in which the first call enters its first stage pass, and the
    locals of that pass. *)
Definition demo_ok_stage0 : ZoroState demo_ok :=
  get_gp_sensitivities demo_ok 0
    (query_nodes demo_ok 0 (init_solve_stats demo_ok 3 demo_ok_new)).
Definition demo_ok_stage0_locals : StageLocals ZScalar :=
  (* x_stage, u_stage, P_vec_stage; A_nom, B_nom, x_nom; A_total, B_total,
     f_hat; dP_bar_vec, p; htj_sig, tightening, lh *)
  @Build_StageLocals ZScalar
    [0%Z] [0%Z] [1%Z]
    (Mat (R:=ZScalar) 1 1 [[1%Z]]) (Mat (R:=ZScalar) 1 1 [[1%Z]]) [0%Z]
    (Mat (R:=ZScalar) 1 1 [[1%Z]]) (Mat (R:=ZScalar) 1 1 [[1%Z]]) [0%Z]
    [0%Z] [1%Z; 1%Z; 0%Z; 1%Z]
    (Mat (R:=ZScalar) 1 1 [[1%Z]]) [0%Z] [0%Z].

(** ** zoro_acados_utils.py: the remaining helpers *)

(** What the helpers below can raise. *)
Inductive utils_exn : Type :=
| IndexError
| NameError
| AttributeError.

Section Utils.
Context {R : Scalar}.

(** [for i in its: ...] of [propagate]: [y_all[i,:]] raises past the last
    row of [y_all]; [P_return[i]] is always within the list. *)
Fixpoint propagate_loop (Afun Wfun : vec R -> mat R) (B : mat R) (y_all : list (vec R))
    (its : list nat) (P_return : list (mat R)) : list (mat R) + utils_exn :=
  match its with
  | [] => inl P_return
  | i :: rest =>
    match y_all !! i with
    | None => inr IndexError
    | Some y =>
      let P_i := default (zeros_mat 0 0) (P_return !! i) in
      propagate_loop Afun Wfun B y_all rest
        (<[i + 1 := P_propagation P_i (Afun y) B (Wfun y)]> P_return)
    end
  end.

(** [propagate] for [N_sim >= 0]: the covariances along [N_sim] steps from
    [P0]. *)
Definition propagate (P0 : mat R) (Afun : vec R -> mat R) (B : mat R)
    (Wfun : vec R -> mat R) (y_all : list (vec R)) (N_sim : nat)
  : list (mat R) + utils_exn :=
  let P_return := replicate (N_sim + 1) (zeros_mat (rows P0) (cols P0)) in
  let P_return := <[0 := P0]> P_return in
  propagate_loop Afun Wfun B y_all (seq 0 N_sim) P_return.

(** The body of the loop of [P_propagation_with_y] down to [P_prop], for
    the rows [P_vec[i,:]] and [A_nom[i,:,:]]. *)
Definition P_prop_stage (B_tensor : mat R) (variance : list (vec R))
    (mean_dy : list (list (vec R))) (P_vec_i : vec R) (A_nom_i : mat R) (i : nat)
  : mat R :=
  let nx_nom := rows B_tensor in
  let A_GP := slice3 mean_dy i 0 nx_nom in
  let P := vec2sym_mat P_vec_i nx_nom in
  let A_prop := mat_add A_nom_i (matmul B_tensor A_GP) in
  mat_add (matmul (matmul A_prop P) (transpose A_prop))
          (matmul (matmul B_tensor (diag (row variance i))) (transpose B_tensor)).

(** [for i in its: ...] of [P_propagation_with_y]: indexing [P_vec] or
    [A_nom] past their last row raises. *)
Fixpoint P_propagation_with_y_loop (B_tensor : mat R) (variance : list (vec R))
    (mean_dy : list (list (vec R))) (P_vec : list (vec R)) (A_nom : list (mat R))
    (its : list nat) (P_vec_prop : list (vec R)) : list (vec R) + utils_exn :=
  match its with
  | [] => inl P_vec_prop
  | i :: rest =>
    match P_vec !! i, A_nom !! i with
    | Some P_vec_i, Some A_nom_i =>
      let P_prop := P_prop_stage B_tensor variance mean_dy P_vec_i A_nom_i i in
      P_propagation_with_y_loop B_tensor variance mean_dy P_vec A_nom rest
        (<[i := sym_mat2vec P_prop]> P_vec_prop)
    | _, _ => inr IndexError
    end
  end.

(** [P_propagation_with_y] of [generate_gp_funs]: the propagation of [N]
    vectorised covariances at once.  [covar_fun] and [get_mean_dy] are the
    two evaluations of the GP model, of shapes (N, nw) and (nw, N, ny) on an
    input of [N] rows; [B_tensor] is bound only if [generate_gp_funs] was
    given a [B].  [A_nom] holds the nominal transition matrices. *)
Definition P_propagation_with_y (covar_fun : list (vec R) -> list (vec R))
    (get_mean_dy : list (vec R) -> list (list (vec R))) (B_tensor : option (mat R))
    (y : list (vec R)) (P_vec : list (vec R)) (A_nom : list (mat R))
  : list (vec R) + utils_exn :=
  let variance := covar_fun y in
  let mean_dy := get_mean_dy y in
  match B_tensor with
  | None => inr NameError
  | Some B_tensor =>
    let nx_nom := rows B_tensor in
    let nx_vec := (nx_nom + 1) * nx_nom / 2 in
    let N := length y in
    let P_vec_prop := replicate N (zeros nx_vec) in
    P_propagation_with_y_loop B_tensor variance mean_dy P_vec A_nom (seq 0 N) P_vec_prop
  end.

(** The value of an [r] x [c] matrix of symbols whose column-major
    flattening ([A.reshape((r*c, 1))] in casadi) has the value [v]. *)
Definition unflatten (r c : nat) (v : vec R) : mat R :=
  mk_mat r c (fun i j => vget v (j * r + i)).

(** [AcadosModel], as far as this repository fills it.  The symbols [x],
    [u], [p] are kept by their sizes; a casadi expression over them is kept
    as the function that evaluates it at values of [x], [u] and [p] (and of
    [xdot], for the implicit form). *)
Record AcadosModel : Type := {
  model_name : string;
  model_x : nat;
  model_u : nat;
  model_p : nat;
  f_expl_expr : vec R -> vec R -> vec R -> vec R;
  f_impl_expr : vec R -> vec R -> vec R -> vec R -> vec R;
  disc_dyn_expr : vec R -> vec R -> vec R -> vec R;
  con_h_expr : option (vec R -> vec R -> vec R -> vec R)
}.

(** [export_linear_model]: x+ = A x + B u + w with [A], [B] and [w] read
    from the head of the parameter vector [p_lin].  The symbols of the
    original [p] are the tail of [p_lin]. *)
Definition export_linear_model (x u p : nat) : AcadosModel :=
  let nx := x in
  let nu := u in
  let np := p in
  let A := fun p_lin : vec R => unflatten nx nx (take (nx ^ 2) p_lin) in
  let B := fun p_lin : vec R => unflatten nx nu (take (nx * nu) (drop (nx ^ 2) p_lin)) in
  let w := fun p_lin : vec R => take nx (drop (nx ^ 2 + nx * nu) p_lin) in
  let f_expl := fun (xv uv p_lin : vec R) =>
    vec_add (vec_add (matvec (A p_lin) xv) (matvec (B p_lin) uv)) (w p_lin) in
  let f_impl := fun (xdot xv uv p_lin : vec R) => vec_sub xdot (f_expl xv uv p_lin) in
  {| model_name :=
       "linear_model_with_params_nx" +:+ pretty nx +:+ "_nu" +:+ pretty nu +:+
       "_np" +:+ pretty np;
     model_x := x; model_u := u; model_p := nx ^ 2 + nx * nu + nx + np;
     f_expl_expr := f_expl; f_impl_expr := f_impl; disc_dyn_expr := f_expl;
     con_h_expr := None |}.

(** [AcadosOcp], as far as [transform_ocp] and [__init__] touch it. *)
Record AcadosOcp : Type := {
  ocp_model : AcadosModel;
  parameter_values : vec R;
  integrator_type : string;
  nlp_solver_type : string;
  dims_N : nat;
  constraints_lh0 : vec R
}.

(** [transform_ocp]: the model is replaced by the linear one, which keeps
    the constraint expression; the expression still reads the symbols of the
    original [p], now the tail of the parameter vector.  Reading the shape of
    a constraint expression that was never set raises. *)
Definition transform_ocp (ocp : AcadosOcp) : AcadosOcp + utils_exn :=
  let nx := model_x (ocp_model ocp) in
  let nu := model_u (ocp_model ocp) in
  match con_h_expr (ocp_model ocp) with
  | None => inr AttributeError
  | Some h =>
    let model_lin :=
      export_linear_model (model_x (ocp_model ocp)) (model_u (ocp_model ocp))
        (model_p (ocp_model ocp)) in
    let model_lin :=
      {| model_name := model_name model_lin; model_x := model_x model_lin;
         model_u := model_u model_lin; model_p := model_p model_lin;
         f_expl_expr := f_expl_expr model_lin; f_impl_expr := f_impl_expr model_lin;
         disc_dyn_expr := disc_dyn_expr model_lin;
         con_h_expr :=
           Some (fun xv uv p_lin => h xv uv (drop (nx ^ 2 + nx * nu + nx) p_lin)) |} in
    inl {| ocp_model := model_lin;
           parameter_values := zeros (model_p model_lin);
           integrator_type := "DISCRETE";
           nlp_solver_type := "SQP_RTI";
           dims_N := dims_N ocp;
           constraints_lh0 := constraints_lh0 ocp |}
  end.

End Utils.

Arguments AcadosModel : clear implicits.
Arguments AcadosOcp : clear implicits.

(** ** More predicates on states *)

Section MorePredicates.
Context {R : Scalar}.
Variable self : ZoroAcados R.

(** [P_bar_all_vec] holds the encodings of the entries of [P_bar_all]. *)
Definition covariances_agree (s : ZoroState self) : Prop :=
  P_bar_all_vec s = fmap (M:=option) (sym_mat2vec (R:=R)) <$> P_bar_all s.

(** Every covariance in [P_bar_all] is an nx x nx array. *)
Definition covariances_shaped (s : ZoroState self) : Prop :=
  forall k P, P_bar_all s !! k = Some (Some P) -> has_shape (nx self) (nx self) P.

(** [self.solve_stats["timings"][key][j]], if the key and the index exist. *)
Definition timing_at (s : ZoroState self) (key : string) (j : nat) : option R :=
  arr ← timings (solve_stats s) !! key; arr !! j.


End MorePredicates.

Arguments timing_at {R self} _ _ _.
Arguments covariances_agree {R self} _.
Arguments covariances_shaped {R self} _.

(** ** More small instances *)


(** A vector of three entries, and a square matrix that is not symmetric. *)
Definition demo_v : vec ZScalar := [1; 2; 3]%Z.
Definition demo_L : mat ZScalar := Mat (R:=ZScalar) 2 2 [[1; 2]; [3; 4]]%Z.

(** Two steps of [propagate] from [demo_P], with a constant transition and a
    constant noise covariance. *)
Definition demo_y_all : list (vec ZScalar) := [[0]; [0]]%Z.
Definition demo_propagate : list (mat ZScalar) + utils_exn :=
  propagate demo_P (fun _ => demo_A) demo_B (fun _ => demo_W) demo_y_all 2.

(** One row for [P_propagation_with_y]: a GP with variance 5 and a mean that
    does not depend on its input. *)
Definition demo_covar_fun (y : list (vec ZScalar)) : list (vec ZScalar) :=
  (fun _ => [5%Z]) <$> y.
Definition demo_get_mean_dy (y : list (vec ZScalar)) : list (list (vec ZScalar)) :=
  [(fun _ => [0; 0]%Z) <$> y].

(** A nominal problem with one state, one control and one covariance
    parameter, whose constraint expression is the parameter itself. *)
Definition demo_nominal_ocp : AcadosOcp ZScalar :=
  {| ocp_model :=
       {| model_name := "demo"; model_x := 1; model_u := 1; model_p := 1;
          f_expl_expr := fun (x _ _ : vec ZScalar) => x;
          f_impl_expr := fun (xdot x _ _ : vec ZScalar) => vec_sub xdot x;
          disc_dyn_expr := fun (x _ _ : vec ZScalar) => x;
          con_h_expr := Some (fun (_ _ p : vec ZScalar) => p) |};
     parameter_values := [0%Z];
     integrator_type := "ERK";
     nlp_solver_type := "SQP";
     dims_N := 2;
     constraints_lh0 := [0%Z] |}.

(** * Lemmas *)

Ltac state_simpl :=
  cbn [x_hat_all u_hat_all y_hat_all P_bar_all P_bar_all_vec P_bar_old_vec
       mean mean_dy var solve_stats ocp_solver sim_solver
       set_x_hat_all set_u_hat_all set_y_hat_all set_P_bar_all set_P_bar_all_vec
       set_P_bar_old_vec set_gp set_solve_stats set_ocp_solver set_sim_solver
       timing_add timing_set n_iter timings_total timings
       x_stage u_stage P_vec_stage A_nom B_nom x_nom A_total B_total f_hat dP_bar_vec p htj_sig tightening lh
       stage_locals status residuals final trace raised
       fst snd].


(** ** Arrays *)

Section ArrayFacts.
Context {R : Scalar} {HR : Exact R}.

Add Ring scalar_ring_facts : (@scalar_ring R HR).

Implicit Types (M A B P W : mat R) (v : vec R) (f g : nat -> R).

Lemma length_mk_vec n f : length (mk_vec (R:=R) n f) = n.
Proof. unfold mk_vec. by rewrite length_fmap, length_seq. Qed.

Lemma lookup_mk_vec n f i : i < n -> mk_vec (R:=R) n f !! i = Some (f i).
Proof.
  intros Hi. unfold mk_vec. rewrite list_lookup_fmap, lookup_seq_lt by done. done.
Qed.

Lemma lookup_mk_vec_ge n f i : n <= i -> mk_vec (R:=R) n f !! i = None.
Proof. intros Hi. apply lookup_ge_None_2. by rewrite length_mk_vec. Qed.

Lemma vget_mk_vec n f i : i < n -> vget (mk_vec n f) i = f i.
Proof. intros Hi. unfold vget. by rewrite lookup_mk_vec. Qed.

Lemma mget_mk_mat r c (h : nat -> nat -> R) i j :
  i < r -> j < c -> mget (mk_mat r c h) i j = h i j.
Proof.
  intros Hi Hj. unfold mget, mk_mat. simpl.
  rewrite list_lookup_fmap, lookup_seq_lt by done. simpl.
  by rewrite lookup_mk_vec.
Qed.

Lemma mget_mk_mat_out r c (h : nat -> nat -> R) i j :
  r <= i \/ c <= j -> mget (mk_mat r c h) i j = 0%S.
Proof.
  intros Hij. unfold mget, mk_mat. simpl.
  rewrite list_lookup_fmap.
  destruct (decide (i < r)) as [Hi|Hi].
  - rewrite lookup_seq_lt by done. simpl.
    rewrite lookup_mk_vec_ge by lia. done.
  - rewrite lookup_seq_ge by lia. done.
Qed.

Lemma wf_mk_mat r c (h : nat -> nat -> R) : wf_mat (mk_mat r c h).
Proof.
  split; simpl.
  - by rewrite length_fmap, length_seq.
  - apply Forall_fmap, Forall_forall. intros i _. simpl. apply length_mk_vec.
Qed.

Lemma mk_mat_ext r c (h h' : nat -> nat -> R) :
  (forall i j, i < r -> j < c -> h i j = h' i j) -> mk_mat r c h = mk_mat r c h'.
Proof.
  intros Hh. unfold mk_mat. f_equal.
  apply list_eq. intros i. rewrite !list_lookup_fmap.
  destruct (decide (i < r)) as [Hi|Hi].
  - rewrite lookup_seq_lt by done. simpl. f_equal.
    apply list_eq. intros j. unfold mk_vec. rewrite !list_lookup_fmap.
    destruct (decide (j < c)) as [Hj|Hj].
    + rewrite lookup_seq_lt by done. simpl. f_equal. by apply Hh.
    + rewrite lookup_seq_ge by lia. done.
  - rewrite lookup_seq_ge by lia. done.
Qed.

(** A well-formed matrix is the table of its entries. *)
Lemma mk_mat_mget M : wf_mat M -> mk_mat (rows M) (cols M) (mget M) = M.
Proof.
  destruct M as [r c d]. intros [Hr Hc]. simpl in *. unfold mk_mat. f_equal.
  apply list_eq. intros i. rewrite list_lookup_fmap.
  destruct (d !! i) as [row|] eqn:Hrow.
  - assert (i < r) as Hi by (rewrite <- Hr; by eapply lookup_lt_Some).
    rewrite lookup_seq_lt by done. simpl. f_equal.
    assert (length row = c) as Hlen.
    { eapply (proj1 (Forall_forall _ _) Hc). by eapply list_elem_of_lookup_2. }
    apply list_eq. intros j. unfold mk_vec. rewrite list_lookup_fmap.
    destruct (row !! j) as [x|] eqn:Hx.
    + assert (j < c) as Hj by (rewrite <- Hlen; by eapply lookup_lt_Some).
      rewrite lookup_seq_lt by done. simpl. unfold mget. simpl.
      rewrite Hrow. simpl. by rewrite Hx.
    + apply lookup_ge_None_1 in Hx. rewrite lookup_seq_ge by lia. done.
  - apply lookup_ge_None_1 in Hrow. rewrite lookup_seq_ge by lia. done.
Qed.

Lemma mat_ext A B :
  wf_mat A -> wf_mat B -> rows A = rows B -> cols A = cols B ->
  (forall i j, i < rows A -> j < cols A -> mget A i j = mget B i j) -> A = B.
Proof.
  intros HA HB Hr Hc Hent.
  rewrite <- (mk_mat_mget A HA), <- (mk_mat_mget B HB), <- Hr, <- Hc.
  by apply mk_mat_ext.
Qed.

(** Finite sums. *)
Lemma sum_n_S n f : sum_n (S n) f = (sum_n n f + f n)%S.
Proof.
  unfold sum_n. rewrite seq_S, foldr_app. simpl.
  generalize (seq 0 n). intros l. induction l as [|k l IH]; simpl.
  - ring.
  - rewrite IH. ring.
Qed.

Lemma sum_n_ext n f g : (forall k, k < n -> f k = g k) -> sum_n n f = sum_n n g.
Proof.
  induction n as [|n IH]; intros Hfg; [done|].
  rewrite !sum_n_S, IH, Hfg by (intros; try apply Hfg; lia). done.
Qed.

Lemma sum_n_zero n : sum_n (R:=R) n (fun _ => 0%S) = 0%S.
Proof. induction n as [|n IH]; [done|]. rewrite sum_n_S, IH. ring. Qed.




Lemma symmetric_inv P :
  symmetric P ->
  wf_mat P /\ cols P = rows P /\
  forall i j, i < rows P -> j < rows P -> mget P i j = mget P j i.
Proof.
  intros HP. unfold symmetric in HP.
  assert (cols P = rows P) as Hsq by (rewrite <- HP at 2; done).
  split; [rewrite <- HP; apply wf_mk_mat|]. split; [done|].
  intros i j Hi Hj. rewrite <- HP at 1. unfold transpose.
  rewrite mget_mk_mat by lia. done.
Qed.





(** *** The codec *)

Lemma elem_of_triu_indices n i j : (i, j) ∈ triu_indices n <-> i <= j < n.
Proof.
  unfold triu_indices. rewrite list_elem_of_bind. split.
  - intros (a & Hj & Ha). apply list_elem_of_fmap in Hj as (b & Heq & Hb).
    inversion Heq; subst. apply elem_of_seq in Hb. lia.
  - intros Hij. exists i. split.
    + apply list_elem_of_fmap. exists j. split; [done|]. apply elem_of_seq. lia.
    + apply elem_of_seq. lia.
Qed.

Lemma length_triu_rows a k :
  2 * length (i ← seq a k; (fun j => (i, j)) <$> seq i (a + k - i)) = k * (k + 1).
Proof.
  revert a. induction k as [|k IH]; intros a; [done|].
  csimpl. rewrite length_app, length_fmap, length_seq.
  replace (a + S k) with (S a + k) by lia.
  specialize (IH (S a)). nia.
Qed.

Lemma length_triu_indices n : length (triu_indices n) = n * (n + 1) / 2.
Proof.
  unfold triu_indices. pose proof (length_triu_rows 0 n) as H. simpl in H.
  apply Nat.div_unique_exact; lia.
Qed.

Lemma length_sym_mat2vec M : length (sym_mat2vec M) = rows M * (rows M + 1) / 2.
Proof. unfold sym_mat2vec. by rewrite length_fmap, length_triu_indices. Qed.

Lemma wf_mset M a b x : wf_mat M -> wf_mat (mset M a b x).
Proof.
  intros [Hr Hc]. split; simpl.
  - by rewrite length_alter.
  - apply Forall_alter; [done|]. intros row _ Hrow. by rewrite length_insert.
Qed.

Lemma mget_mset M a b x i j :
  wf_mat M -> a < rows M -> b < cols M ->
  mget (mset M a b x) i j = if decide (a = i /\ b = j) then x else mget M i j.
Proof.
  intros [Hr Hc] Ha Hb. unfold mget, mset. simpl.
  destruct (decide (a = i)) as [->|Hai].
  - rewrite list_lookup_alter_eq.
    destruct (data M !! i) as [row|] eqn:Hrow; simpl.
    + assert (length row = cols M) as Hlen.
      { eapply (proj1 (Forall_forall _ _) Hc). by eapply list_elem_of_lookup_2. }
      destruct (decide (b = j)) as [->|Hbj].
      * rewrite list_lookup_insert_eq by lia. by rewrite decide_True.
      * rewrite list_lookup_insert_ne by done. rewrite decide_False by tauto. done.
    + apply lookup_ge_None_1 in Hrow. lia.
  - rewrite list_lookup_alter_ne by done. rewrite decide_False by tauto. done.
Qed.

(** What [mat[i, j] = vec] leaves at an entry when [vec] holds [g] of the
    index pairs: the value for the pair that targets the entry, if any. *)
Lemma mget_assign_at (swap : bool) (g : nat * nat -> R) (idx : list (nat * nat)) M (i j : nat) :
  wf_mat M ->
  Forall (fun e : nat * nat => e.1 < rows M /\ e.2 < rows M) idx -> cols M = rows M ->
  let src := if swap then (j, i) else (i, j) in
  mget (assign_at swap M idx (g <$> idx)) i j =
  if decide (src ∈ idx) then g src else mget M i j.
Proof.
  intros HM Hidx Hsq src. unfold assign_at.
  revert M HM Hidx Hsq. induction idx as [|[a b] idx IH]; intros M HM Hidx Hsq.
  - case_decide as Hin; [by apply elem_of_nil in Hin|done].
  - apply Forall_cons in Hidx as [[Ha Hb] Hidx]. simpl in Ha, Hb.
    rewrite fmap_cons. cbn [zip_with foldl].
    set (M' := if swap then mset M b a (g (a, b)) else mset M a b (g (a, b))).
    assert (wf_mat M' /\ rows M' = rows M /\ cols M' = cols M) as (HM' & Hr' & Hc').
    { subst M'. destruct swap; (split; [by apply wf_mset|done]). }
    rewrite (IH M') by (done || (rewrite Hr'; done) || congruence).
    assert (mget M' i j = if decide (src = (a, b)) then g (a, b) else mget M i j) as HM'ij.
    { subst M' src. destruct swap.
      - rewrite mget_mset by (done || lia).
        destruct (decide (b = i /\ a = j)) as [[-> ->]|Hne].
        + by rewrite decide_True.
        + rewrite decide_False; [done|]. intros Heq. apply Hne. by inversion Heq.
      - rewrite mget_mset by (done || lia).
        destruct (decide (a = i /\ b = j)) as [[-> ->]|Hne].
        + by rewrite decide_True.
        + rewrite decide_False; [done|]. intros Heq. apply Hne. by inversion Heq. }
    rewrite HM'ij. clear HM'ij.
    destruct (decide (src ∈ idx)) as [Hin|Hnin].
    + rewrite decide_True by (apply elem_of_cons; by right). done.
    + destruct (decide (src = (a, b))) as [->|Hne].
      * rewrite decide_True by (apply elem_of_cons; by left). done.
      * rewrite decide_False; [done|].
        intros Hin. apply elem_of_cons in Hin as [?|?]; done.
Qed.

Lemma assign_at_shape swap M idx v :
  wf_mat M ->
  wf_mat (assign_at swap M idx v) /\
  rows (assign_at swap M idx v) = rows M /\ cols (assign_at swap M idx v) = cols M.
Proof.
  unfold assign_at. generalize (zip idx v). intros l. revert M.
  induction l as [|[[a b] x] l IH]; intros M HM; [done|].
  simpl. destruct swap.
  - destruct (IH (mset M b a x) (wf_mset _ _ _ _ HM)) as (? & ? & ?). done.
  - destruct (IH (mset M a b x) (wf_mset _ _ _ _ HM)) as (? & ? & ?). done.
Qed.

(** C5.  For a symmetric n x n matrix [M], [sym_mat2vec M] has n (n + 1) / 2
    entries and [vec2sym_mat (sym_mat2vec M) n] is [M], both triangles
    rebuilt from the upper one. *)
Theorem vec2sym_mat_sym_mat2vec M :
  symmetric M ->
  length (sym_mat2vec M) = rows M * (rows M + 1) / 2 /\
  vec2sym_mat (sym_mat2vec M) (rows M) = M.
Proof.
  intros HM. split; [apply length_sym_mat2vec|].
  destruct (symmetric_inv M HM) as (Hwf & Hsq & Hsym).
  unfold vec2sym_mat, sym_mat2vec.
  set (n := rows M). set (g := fun ij : nat * nat => mget M ij.1 ij.2).
  assert (Forall (fun e : nat * nat => e.1 < n /\ e.2 < n) (triu_indices n)) as Hidx.
  { apply Forall_forall. intros [a b] Hab. apply elem_of_triu_indices in Hab.
    simpl. lia. }
  pose proof (wf_mk_mat n n (fun _ _ => 0%S)) as Hz.
  destruct (assign_at_shape false (zeros_mat n n) (triu_indices n)
              (g <$> triu_indices n) Hz) as (Hwf1 & Hr1 & Hc1).
  destruct (assign_at_shape true _ (triu_indices n) (g <$> triu_indices n) Hwf1)
    as (Hwf2 & Hr2 & Hc2).
  apply mat_ext; [done|done|by rewrite Hr2, Hr1|by rewrite Hc2, Hc1, Hsq|].
  rewrite Hr2, Hr1, Hc2, Hc1. simpl. intros i j Hi Hj.
  rewrite (mget_assign_at true) by (done || (rewrite Hr1; done) || congruence).
  destruct (decide ((j, i) ∈ triu_indices n)) as [Hin|Hnin].
  - subst g. simpl. apply Hsym; done.
  - rewrite (mget_assign_at false) by done.
    rewrite decide_True; [done|]. apply elem_of_triu_indices.
    rewrite elem_of_triu_indices in Hnin. lia.
Qed.

(** *** Zero operands *)


Lemma mk_vec_zero n : mk_vec (R:=R) n (fun _ => 0%S) = zeros n.
Proof.
  unfold mk_vec, zeros. apply list_eq. intros i. rewrite list_lookup_fmap.
  destruct (decide (i < n)) as [Hi|Hi].
  - rewrite lookup_seq_lt, lookup_replicate_2 by done. done.
  - rewrite lookup_seq_ge by lia. symmetry. apply lookup_replicate_None. lia.
Qed.


Lemma Rmul_0_r_scalar (x : R) : (x * 0)%S = 0%S.
Proof. ring. Qed.

Lemma vec_add_zeros v n : length v <= n -> vec_add v (zeros n) = v.
Proof.
  unfold vec_add, zeros. revert n. induction v as [|x v IH]; intros n Hn; [done|].
  destruct n as [|n]; simpl in *; [lia|]. rewrite IH by lia. f_equal. ring.
Qed.

Lemma matmul_all_zero A Z : all_zero Z -> all_zero (matmul A Z).
Proof.
  intros HZ i j. unfold matmul.
  destruct (decide (i < rows A /\ j < cols Z)) as [[Hi Hj]|Hout].
  - rewrite mget_mk_mat by done. rewrite <- (sum_n_zero (cols A)).
    apply sum_n_ext. intros k _. rewrite HZ. ring.
  - apply mget_mk_mat_out. lia.
Qed.

Lemma mat_add_all_zero A Z : wf_mat A -> all_zero Z -> mat_add A Z = A.
Proof.
  intros HA HZ. unfold mat_add. rewrite <- (mk_mat_mget A HA) at 3.
  apply mk_mat_ext. intros i j _ _. rewrite HZ. ring.
Qed.

End ArrayFacts.

(** ** The stage loop and the outer loop *)

Section ZoroFacts.
Context {R : Scalar} {HR : Exact R}.
Variable self : ZoroAcados R.

Implicit Types (s : ZoroState self) (loc : StageLocals R).

Lemma read_insert_ne {A} (l : list (option A)) (j k : nat) (x : option A) :
  j <> k -> read (<[j := x]> l) k = read l k.
Proof. intros Hjk. unfold read. by rewrite list_lookup_insert_ne. Qed.

Lemma read_Some {A} (l : list (option A)) (k : nat) (x : A) :
  read l k = Some x <-> l !! k = Some (Some x).
Proof.
  unfold read. destruct (l !! k) as [[y|]|]; simpl; split; intros H; by inversion H.
Qed.

Lemma same_inputs_refl s : same_inputs s s.
Proof. by repeat split. Qed.

Lemma same_inputs_trans s1 s2 s3 :
  same_inputs s1 s2 -> same_inputs s2 s3 -> same_inputs s1 s3.
Proof.
  intros (?&?&?&?&?&?&?&?) (?&?&?&?&?&?&?&?). repeat split; congruence.
Qed.

Lemma same_inputs_sym s1 s2 : same_inputs s1 s2 -> same_inputs s2 s1.
Proof. intros (?&?&?&?&?&?&?&?). by repeat split. Qed.

(** The locals depend on the state through what the stage loop only reads. *)
Lemma locals_post_inputs stage s s' loc :
  locals_post self stage s loc -> same_inputs s' s -> locals_post self stage s' loc.
Proof.
  intros [L1 L2 L3 L4 L5 L6 L7 L8 L9] (I1&I2&I3&I4&I5&I6&I7&I8).
  split; try done; congruence.
Qed.

(** The stage body runs to its end when the entries at [stage] are there. *)
Lemma update_stage_spec i stage s P P_vec :
  read (P_bar_all s) stage = Some P ->
  read (P_bar_all_vec s) stage = Some P_vec ->
  exists s' loc,
    update_stage self i stage s = (s', inl loc) /\ stage_post self stage s P P_vec s' loc.
Proof.
  intros HP HPv. unfold update_stage, delta_P_bar_vec. cbv zeta. state_simpl.
  rewrite HP. rewrite read_insert_ne by lia. rewrite HPv.
  destruct (P_bar_old_vec s) as [old|] eqn:Hold; simpl.
  - eexists _, _. split; [reflexivity|].
    split; state_simpl; rewrite ?Hold; try reflexivity; by repeat split.
  - eexists _, _. split; [reflexivity|].
    split; state_simpl; rewrite ?Hold; try reflexivity; by repeat split.
Qed.

Lemma update_stages_app i l1 l2 s :
  update_stages self i (l1 ++ l2) s =
  match update_stages self i l1 s with
  | (s1, inr e) => (s1, inr e)
  | (s1, inl locs1) =>
    match update_stages self i l2 s1 with
    | (s2, inr e) => (s2, inr e)
    | (s2, inl locs2) => (s2, inl (locs1 ++ locs2))
    end
  end.
Proof.
  revert s. induction l1 as [|stage l1 IH]; intros s; simpl.
  - destruct (update_stages self i l2 s) as [s2 [locs2|e]]; done.
  - destruct (update_stage self i stage s) as [s1 [loc|e]]; [|done].
    rewrite IH. destruct (update_stages self i l1 s1) as [s1' [locs1|e]]; [|done].
    destruct (update_stages self i l2 s1') as [s2 [locs2|e]]; done.
Qed.

(** The stage loop, pass by pass. *)
Lemma update_stages_prefix i n s :
  wf_state s -> n <= N self ->
  exists s' locs,
    update_stages self i (seq 0 n) s = (s', inl locs) /\ sweep_post self n s s' locs.
Proof.
  intros Hwf. induction n as [|n IH]; intros Hn.
  - exists s, []. split; [done|].
    split; try done; try apply same_inputs_refl;
      intros k loc Hk; by rewrite lookup_nil in Hk.
  - destruct IH as (s1 & locs & Hrun & Hpost); [lia|].
    destruct Hpost as [Hlen Hwf1 Hin Hrest Hold Hchain Hdelta Hlocs].
    destruct Hwf1 as (HlenP & HlenV & HP0 & HV0).
    assert (exists P, P_bar_all s1 !! n = Some (Some P)) as [P HP].
    { destruct n as [|m]; [eauto|].
      destruct (lookup_lt_is_Some_2 locs m) as [loc Hloc]; [lia|].
      destruct (Hchain m loc Hloc) as (P' & _ & HP' & _).
      replace (S m) with (m + 1) by lia. eauto. }
    assert (exists P_vec, P_bar_all_vec s1 !! n = Some (Some P_vec)) as [P_vec HPv].
    { destruct n as [|m]; [eauto|].
      destruct (lookup_lt_is_Some_2 locs m) as [loc Hloc]; [lia|].
      destruct (Hchain m loc Hloc) as (P' & _ & _ & HP').
      replace (S m) with (m + 1) by lia. eauto. }
    destruct (update_stage_spec i n s1 P P_vec) as (s2 & loc & Hstep & Hpost2);
      [by apply read_Some|by apply read_Some|].
    destruct Hpost2 as [Hloc2 HPvs HdP HPall HPvec Hold2 _ Hin2].
    exists s2, (locs ++ [loc]). split.
    { rewrite seq_S, update_stages_app, Hrun. simpl. by rewrite Hstep. }
    assert (var s1 = var s) as Hvar by (destruct Hin as (?&?&?&?&?&?&?&?); done).
    assert (P_next self s1 n P loc = P_next self s n P loc) as HPn.
    { unfold P_next. by rewrite Hvar. }
    split.
    + rewrite length_app. simpl. lia.
    + split; [|split; [|split]].
      * by rewrite HPall, length_insert.
      * by rewrite HPvec, length_insert.
      * rewrite HPall, list_lookup_insert_ne by lia. done.
      * rewrite HPvec, list_lookup_insert_ne by lia. done.
    + eapply same_inputs_trans; eauto.
    + intros k Hk. rewrite HPall, HPvec, !list_lookup_insert_ne by lia.
      apply Hrest. lia.
    + rewrite Hold2. simpl. unfold read.
      replace (n + 1) with (S n) by lia.
      destruct (Hrest (S n)) as [_ ->]; [lia|]. done.
    + intros k loc' Hk.
      destruct (decide (k < n)) as [Hlt|Hge].
      * rewrite lookup_app_l in Hk by lia.
        destruct (Hchain k loc' Hk) as (P' & H1 & H2 & H3).
        exists P'. rewrite HPall, HPvec, !list_lookup_insert_ne by lia. done.
      * assert (k = n) as -> by (apply lookup_lt_Some in Hk; rewrite length_app in Hk; simpl in Hk; lia).
        rewrite lookup_app_r, Hlen, Nat.sub_diag in Hk by lia.
        inversion Hk; subst loc'.
        exists P. rewrite HPall, HPvec.
        rewrite list_lookup_insert_ne by lia.
        rewrite !list_lookup_insert_eq by lia. rewrite HPn. done.
    + intros k loc' Hk.
      destruct (decide (k < n)) as [Hlt|Hge].
      * rewrite lookup_app_l in Hk by lia.
        destruct (Hdelta k loc' Hk) as (H1 & H2).
        rewrite HPvec, list_lookup_insert_ne by lia. done.
      * assert (k = n) as -> by (apply lookup_lt_Some in Hk; rewrite length_app in Hk; simpl in Hk; lia).
        rewrite lookup_app_r, Hlen, Nat.sub_diag in Hk by lia.
        inversion Hk; subst loc'.
        rewrite HPvec, list_lookup_insert_ne by lia.
        rewrite HPvs, HdP, Hold. done.
    + intros k loc' Hk.
      destruct (decide (k < n)) as [Hlt|Hge].
      * rewrite lookup_app_l in Hk by lia. by apply Hlocs.
      * assert (k = n) as -> by (apply lookup_lt_Some in Hk; rewrite length_app in Hk; simpl in Hk; lia).
        rewrite lookup_app_r, Hlen, Nat.sub_diag in Hk by lia.
        inversion Hk; subst loc'.
        by apply (locals_post_inputs n s1 s).
Qed.

(** Querying the nodes and evaluating the GP leave the covariances alone. *)
Lemma query_nodes_keeps i s :
  P_bar_all (query_nodes self i s) = P_bar_all s /\
  P_bar_all_vec (query_nodes self i s) = P_bar_all_vec s /\
  P_bar_old_vec (query_nodes self i s) = P_bar_old_vec s /\
  mean (query_nodes self i s) = mean s /\
  mean_dy (query_nodes self i s) = mean_dy s /\
  var (query_nodes self i s) = var s /\
  n_iter (solve_stats (query_nodes self i s)) = n_iter (solve_stats s) /\
  timings_total (solve_stats (query_nodes self i s)) = timings_total (solve_stats s).
Proof.
  assert (forall l s0,
    P_bar_all (foldl (query_stage self) s0 l) = P_bar_all s0 /\
    P_bar_all_vec (foldl (query_stage self) s0 l) = P_bar_all_vec s0 /\
    P_bar_old_vec (foldl (query_stage self) s0 l) = P_bar_old_vec s0 /\
    mean (foldl (query_stage self) s0 l) = mean s0 /\
    mean_dy (foldl (query_stage self) s0 l) = mean_dy s0 /\
    var (foldl (query_stage self) s0 l) = var s0 /\
    n_iter (solve_stats (foldl (query_stage self) s0 l)) = n_iter (solve_stats s0) /\
    timings_total (solve_stats (foldl (query_stage self) s0 l)) =
      timings_total (solve_stats s0)) as Hfold.
  { induction l as [|stage l IH]; intros s0; [done|].
    simpl. destruct (IH (query_stage self s0 stage)) as (->&->&->&->&->&->&->&->).
    done. }
  unfold query_nodes. cbv zeta. state_simpl.
  apply (Hfold (seq 0 (N self))
           (set_ocp_solver self (ocp_options_set_rti_phase (ocp_api self) 1) s)).
Qed.
Lemma get_gp_sensitivities_keeps i s :
  P_bar_all (get_gp_sensitivities self i s) = P_bar_all s /\
  P_bar_all_vec (get_gp_sensitivities self i s) = P_bar_all_vec s /\
  P_bar_old_vec (get_gp_sensitivities self i s) = P_bar_old_vec s /\
  n_iter (solve_stats (get_gp_sensitivities self i s)) = n_iter (solve_stats s) /\
  timings_total (solve_stats (get_gp_sensitivities self i s)) =
    timings_total (solve_stats s) /\
  (gp_sensitivities self = None ->
   mean (get_gp_sensitivities self i s) = mean s /\
   mean_dy (get_gp_sensitivities self i s) = mean_dy s /\
   var (get_gp_sensitivities self i s) = var s).
Proof.
  unfold get_gp_sensitivities. cbv zeta.
  destruct (gp_sensitivities self) as [gp|]; state_simpl; repeat split; done.
Qed.

(** The state in which the stage loop of an outer iteration starts. *)
Lemma iteration_start_keeps i s :
  let s0 := get_gp_sensitivities self i (query_nodes self i s) in
  P_bar_all s0 = P_bar_all s /\ P_bar_all_vec s0 = P_bar_all_vec s /\
  P_bar_old_vec s0 = P_bar_old_vec s /\
  n_iter (solve_stats s0) = n_iter (solve_stats s) /\
  timings_total (solve_stats s0) = timings_total (solve_stats s) /\
  (gp_sensitivities self = None ->
   mean s0 = mean s /\ mean_dy s0 = mean_dy s /\ var s0 = var s).
Proof.
  intros s0. subst s0.
  destruct (query_nodes_keeps i s) as (Q1&Q2&Q3&Q4&Q5&Q6&Q7&Q8).
  destruct (get_gp_sensitivities_keeps i (query_nodes self i s))
    as (G1&G2&G3&G4&G5&G6).
  repeat split; try congruence.
  - destruct (G6 H) as (->&_&_). done.
  - destruct (G6 H) as (_&->&_). done.
  - destruct (G6 H) as (_&_&->). done.
Qed.

Lemma snapshot_at_ext s s' k :
  P_bar_all_vec s' = P_bar_all_vec s -> P_bar_old_vec s' = P_bar_old_vec s ->
  snapshot_at s' k = snapshot_at s k.
Proof. intros HV Hold. destruct k; simpl; congruence. Qed.

(** The body of the outer loop runs to its end from a well-formed state. *)
Lemma outer_iteration_spec i s :
  wf_state s ->
  exists s' it, outer_iteration self i s = (s', inl it) /\ iter_post self s s' it.
Proof.
  intros Hwf. unfold outer_iteration. cbv zeta.
  pose proof (iteration_start_keeps i s) as Hkeep. cbv zeta in Hkeep.
  set (s0 := get_gp_sensitivities self i (query_nodes self i s)) in *.
  destruct Hkeep as (K1&K2&K3&K4&K5&K6).
  assert (wf_state s0) as Hwf0.
  { destruct Hwf as (?&?&?&?). unfold wf_state. rewrite K1, K2. done. }
  destruct (update_stages_prefix i (N self) s0 Hwf0) as (s1 & locs & Hrun & Hpost);
    [done|].
  rewrite Hrun. eexists _, _. split; [reflexivity|].
  destruct Hpost as [Hlen Hwf1 Hin Hrest Hold Hchain Hdelta Hlocs].
  pose proof Hin as (I1&I2&I3&I4&I5&I6&I7&I8).
  split; state_simpl.
  - done.
  - congruence.
  - congruence.
  - done.
  - rewrite Hold. by apply snapshot_at_ext.
  - intros k loc Hk. destruct (Hchain k loc Hk) as (P & H1 & H2 & H3).
    exists P. unfold P_next in *. state_simpl. rewrite I6. done.
  - intros k loc Hk. destruct (Hdelta k loc Hk) as (H1 & H2).
    rewrite <- (snapshot_at_ext s s0 k) by done. done.
  - intros k loc Hk. apply (locals_post_inputs k s0); [by apply Hlocs|].
    by repeat split.
  - intros Hgp. destruct (K6 Hgp) as (?&?&?). repeat split; congruence.
Qed.

Lemma last_cons_cons {A} (x y : A) l : last (x :: y :: l) = last (y :: l).
Proof. done. Qed.

(** The outer loop, from a well-formed state. *)
Lemma outer_loop_spec tol its last0 s :
  wf_state s ->
  exists s' tr ex,
    outer_loop self tol its last0 s = (s', tr, ex) /\
    loop_post self tol its last0 s s' tr ex.
Proof.
  revert last0 s. induction its as [|i rest IH]; intros last0 s Hwf.
  - exists s, [], (Returned last0). split; [done|].
    split; try done.
    + intros it Hit. by apply elem_of_nil in Hit.
    + by left.
  - simpl. destruct (outer_iteration_spec i s Hwf) as (s1 & it & Hit & Hpost).
    rewrite Hit.
    assert (forall it', it' ∈ [it] ->
      exists sa sb, iter_post self sa sb it' /\
        (gp_sensitivities self = None -> mean sb = mean s /\ mean_dy sb = mean_dy s))
      as Hall1.
    { intros it' Hin. apply list_elem_of_singleton in Hin. subst it'.
      exists s, s1. split; [done|]. intros Hgp.
      destruct Hpost as [_ _ _ _ _ _ _ _ W9]. destruct (W9 Hgp) as (?&?&?). done. }
    destruct (Z.eqb (status it) 0) eqn:Hst; simpl.
    + apply Z.eqb_eq in Hst.
      destruct (s_ltb (py_max (residuals it)) tol) eqn:Hconv.
      * exists s1, [it], (Returned (Some i)). split; [done|].
        pose proof Hpost as [W1 W2 W3 W4 W5 W6 W7 W8 W9].
        split; try done.
        -- simpl. lia.
        -- intros it' Hit'. inversion Hit'; subst. by exists s1.
        -- intros it' Hit'. inversion Hit'; subst. by exists s.
        -- intros k it1 it2 _ Hk. apply lookup_lt_Some in Hk. simpl in Hk. lia.
        -- intros k it' _ Hk. simpl in Hk. lia.
        -- right. exists it, i. repeat split; try done. by left.
      * destruct (IH (Some i) s1) as (s2 & tr & ex & Hrun & Hloop);
          [by destruct Hpost|].
        rewrite Hrun. exists s2, (it :: tr), ex. split; [done|].
        destruct Hloop as [L1 L2 L3 Lgp L4 L5 L6 L7 Lall Lcons L8 L9].
        pose proof Hpost as [W1 W2 W3 W4 W5 W6 W7 W8 W9].
        split; try done.
        -- congruence.
        -- congruence.
        -- intros Hnone. destruct (Lgp Hnone) as (?&?&?).
           destruct (W9 Hnone) as (?&?&?). repeat split; congruence.
        -- simpl. lia.
        -- intros it' Hit'. inversion Hit'; subst. by exists s1.
        -- intros it' Hit'. destruct tr as [|it2 tr].
           ++ inversion Hit'; subst.
              destruct rest as [|i2 rest]; [|by destruct L5].
              simpl in Hrun. inversion Hrun; subst. by exists s.
           ++ rewrite last_cons_cons in Hit'. by apply L7.
        -- intros it' Hin. apply elem_of_cons in Hin as [->|Hin].
           ++ apply Hall1. apply elem_of_cons. by left.
           ++ destruct (Lall it' Hin) as (sa & sb & Hab & Hgp).
              exists sa, sb. split; [done|]. intros Hnone.
              destruct (Hgp Hnone) as (-> & ->).
              destruct (W9 Hnone) as (?&?&?). done.
        -- intros k it1 it2 Hk Hk'. destruct k as [|k].
           ++ inversion Hk; subst it1. simpl in Hk'.
              destruct (L6 it2) as (s3 & H3).
              { destruct tr; [done|]. simpl in *. done. }
              by exists s, s1, s3.
           ++ simpl in Hk, Hk'. by apply (Lcons k).
        -- intros k it' Hk Hlen. destruct k as [|k].
           ++ inversion Hk; subst. done.
           ++ simpl in Hk, Hlen. apply (L8 k it' Hk). lia.
        -- destruct ex as [l|e].
           ++ right. destruct L9 as [[-> ->]|(it' & i' & H1 & H2 & H3 & H4 & H5)].
              ** exists it, i. repeat split; try done.
                 right. split; [done|]. simpl.
                 destruct rest as [|i2 rest]; [done|by destruct L5].
              ** exists it', i'. destruct tr as [|it2 tr]; [done|].
                 rewrite last_cons_cons. simpl in *. rewrite Nat.sub_0_r in *.
                 repeat split; try done.
                 destruct H5 as [?|[? ?]]; [by left|right; split; [done|lia]].
           ++ destruct L9 as (it' & i' & H1 & H2 & H3 & H4).
              exists it', i'. destruct tr as [|it2 tr]; [done|].
              rewrite last_cons_cons. simpl in *. rewrite Nat.sub_0_r in *.
              repeat split; done.
    + apply Z.eqb_neq in Hst.
      exists s1, [it], (Raised (SolverFailure (status it) i)). split; [done|].
      pose proof Hpost as [W1 W2 W3 W4 W5 W6 W7 W8 W9].
      split; try done.
      * simpl. lia.
      * intros it' Hit'. inversion Hit'; subst. by exists s1.
      * intros it' Hit'. inversion Hit'; subst. by exists s.
      * intros k it1 it2 _ Hk. apply lookup_lt_Some in Hk. simpl in Hk. lia.
      * intros k it' _ Hk. simpl in Hk. lia.
      * exists it, i. done.
Qed.

End ZoroFacts.

(** ** solve *)

Section SolveFacts.
Context {R : Scalar} {HR : Exact R}.
Variable self : ZoroAcados R.

Implicit Types (s : ZoroState self) (loc : StageLocals R) (it : IterLocals R).


Lemma init_solve_stats_wf n s : wf_state s -> wf_state (init_solve_stats self n s).
Proof. done. Qed.

(** [solve] is its loop, then the two assignments to the statistics. *)
Lemma solve_unfold tol n s s' tr ex :
  outer_loop self tol (seq 0 n) None (init_solve_stats self n s) = (s', tr, ex) ->
  trace (solve self tol n s) = tr /\
  P_bar_all (final (solve self tol n s)) = P_bar_all s' /\
  P_bar_all_vec (final (solve self tol n s)) = P_bar_all_vec s' /\
  P_bar_old_vec (final (solve self tol n s)) = P_bar_old_vec s' /\
  var (final (solve self tol n s)) = var s' /\
  mean (final (solve self tol n s)) = mean s' /\
  mean_dy (final (solve self tol n s)) = mean_dy s' /\
  ocp_solver (final (solve self tol n s)) = ocp_solver s' /\
  match ex with
  | Raised e =>
    raised (solve self tol n s) = Some e /\ final (solve self tol n s) = s'
  | Returned None =>
    raised (solve self tol n s) = Some UnboundLocalError /\
    final (solve self tol n s) = s'
  | Returned (Some i) =>
    raised (solve self tol n s) = None /\
    n_iter (solve_stats (final (solve self tol n s))) = i + 1 /\
    timings_total (solve_stats (final (solve self tol n s))) = elapsed_total self
  end.
Proof.
  intros Hrun. unfold solve. cbv zeta. rewrite Hrun.
  destruct ex as [[i|]|e]; state_simpl; repeat split; done.
Qed.

Lemma solve_run tol n s :
  wf_state s ->
  exists s' tr ex,
    outer_loop self tol (seq 0 n) None (init_solve_stats self n s) = (s', tr, ex) /\
    loop_post self tol (seq 0 n) None (init_solve_stats self n s) s' tr ex.
Proof. intros Hwf. apply outer_loop_spec. by apply init_solve_stats_wf. Qed.

Lemma last_elem_of {A} (l : list A) (x : A) : last l = Some x -> x ∈ l.
Proof.
  intros Hl. apply last_Some in Hl as [l' ->]. apply elem_of_app. right.
  apply elem_of_cons. by left.
Qed.

Lemma seq_nonempty n : 0 < n -> seq 0 n <> [].
Proof. destruct n; [lia|done]. Qed.

(** With a positive cap and a solver that reports status 0 throughout, [solve]
    returns and records the number of iterations it ran. *)
Lemma solve_returns_within_cap tol n s :
  wf_state s -> 0 < n ->
  Forall (fun it => status it = 0%Z) (trace (solve self tol n s)) ->
  raised (solve self tol n s) = None /\
  1 <= length (trace (solve self tol n s)) <= n /\
  n_iter (solve_stats (final (solve self tol n s))) = length (trace (solve self tol n s)) /\
  (Forall (fun it => converged tol it = false) (trace (solve self tol n s)) ->
   n_iter (solve_stats (final (solve self tol n s))) = n).
Proof.
  intros Hwf Hn Hok.
  destruct (solve_run tol n s Hwf) as (s' & tr & ex & Hrun & Hloop).
  destruct (solve_unfold tol n s s' tr ex Hrun) as (Htr & _ & _ & _ & _ & _ & _ & _ & Hex).
  rewrite Htr in *.
  destruct Hloop as [_ _ _ _ Hlen Hne _ _ _ _ _ Hhow].
  rewrite length_seq in Hlen.
  specialize (Hne (seq_nonempty n Hn)).
  assert (1 <= length tr) as Hpos by (destruct tr; [done|simpl; lia]).
  destruct ex as [l|e].
  - destruct Hhow as [[-> _]|(it & i & Hlast & Hi & Hst & -> & Hconv)]; [done|].
    destruct Hex as (Hraised & Hiter & _).
    apply lookup_seq in Hi as [-> _]. simpl in Hiter.
    repeat split; try done; try lia.
    intros Hnc. rewrite Hiter.
    destruct Hconv as [Hc|[_ Hfull]].
    + apply last_elem_of in Hlast.
      rewrite Forall_forall in Hnc. rewrite (Hnc it Hlast) in Hc. done.
    + rewrite length_seq in Hfull. lia.
  - destruct Hhow as (it & i & Hlast & _ & Hst & _).
    apply last_elem_of in Hlast. rewrite Forall_forall in Hok.
    by destruct (Hst (Hok it Hlast)).
Qed.

(** X16.  With a positive cap, [solve] raises exactly when the feedback solve
    of the last iteration it ran reported a status other than 0; every
    iteration before that one reported 0 and did not converge. *)
Lemma solve_raises_iff_solver_failure tol n s :
  wf_state s -> 0 < n ->
  (forall e,
     raised (solve self tol n s) = Some e <->
     exists it,
       last (trace (solve self tol n s)) = Some it /\ status it <> 0%Z /\
       e = SolverFailure (status it) (length (trace (solve self tol n s)) - 1)) /\
  (forall k it,
     trace (solve self tol n s) !! k = Some it ->
     k + 1 < length (trace (solve self tol n s)) ->
     status it = 0%Z /\ converged tol it = false).
Proof.
  intros Hwf Hn.
  destruct (solve_run tol n s Hwf) as (s' & tr & ex & Hrun & Hloop).
  destruct (solve_unfold tol n s s' tr ex Hrun) as (Htr & _ & _ & _ & _ & _ & _ & _ & Hex).
  rewrite Htr in *.
  destruct Hloop as [_ _ _ _ Hlen Hne _ _ _ _ Hearly Hhow].
  specialize (Hne (seq_nonempty n Hn)).
  split; [|done]. intros e.
  destruct ex as [l|e'].
  - destruct Hhow as [[-> _]|(it & i & Hlast & Hi & Hst & -> & Hconv)]; [done|].
    destruct Hex as (-> & _). split; [done|].
    intros (it' & Hlast' & Hst' & _). congruence.
  - destruct Hhow as (it & i & Hlast & Hi & Hst & ->).
    destruct Hex as (-> & _).
    apply lookup_seq in Hi as [-> _]. simpl.
    split.
    + intros Heq. inversion Heq; subst. by exists it.
    + intros (it' & Hlast' & Hst' & ->). congruence.
Qed.

(** C4.  From a state whose covariance list starts with [Sigma_x0], as
    [__init__] leaves it: after any number of passes of a stage loop, and
    when [solve] ends, [P_bar_all[0]] is still [Sigma_x0] and every
    [P_bar_all[k + 1]] that a pass has written is [P_propagation] of
    [P_bar_all[k]] with the pass's [A_total], [B] and
    [Sigma_W + diag(var[k])]. *)
Theorem covariance_chain_invariant s :
  wf_state s ->
  (forall i m, m <= N self ->
     exists s' locs,
       update_stages self i (seq 0 m) s = (s', inl locs) /\ length locs = m /\
       P_bar_all s' !! 0 = Some (Some (Sigma_x0 self)) /\
       forall k loc, locs !! k = Some loc ->
         exists P,
           P_bar_all s' !! k = Some (Some P) /\
           P_bar_all s' !! (k + 1) =
           Some (Some (P_propagation P (A_total loc) (B self)
                         (mat_add (Sigma_W self) (diag (row (var s') k)))))) /\
  (forall tol n,
     P_bar_all (final (solve self tol n s)) !! 0 = Some (Some (Sigma_x0 self)) /\
     forall it, last (trace (solve self tol n s)) = Some it ->
       length (stage_locals it) = N self /\
       forall k loc, stage_locals it !! k = Some loc ->
         exists P,
           P_bar_all (final (solve self tol n s)) !! k = Some (Some P) /\
           P_bar_all (final (solve self tol n s)) !! (k + 1) =
           Some (Some (P_propagation P (A_total loc) (B self)
                         (mat_add (Sigma_W self)
                            (diag (row (var (final (solve self tol n s))) k)))))).
Proof.
  intros Hwf. split.
  - intros i m Hm.
    destruct (update_stages_prefix self i m s Hwf Hm) as (s' & locs & Hrun & Hpost).
    destruct Hpost as [Hlen Hwf' Hin _ _ Hchain _ _].
    exists s', locs. split; [done|]. split; [done|].
    split; [by destruct Hwf' as (_&_&?&_)|].
    intros k loc Hk. destruct (Hchain k loc Hk) as (P & H1 & H2 & _).
    exists P. split; [done|]. rewrite H2. unfold P_next.
    destruct Hin as (_&_&_&_&_&->&_). done.
  - intros tol n.
    destruct (solve_run tol n s Hwf) as (s' & tr & ex & Hrun & Hloop).
    destruct (solve_unfold tol n s s' tr ex Hrun)
      as (Htr & HP & _ & _ & Hvar & _).
    rewrite Htr, HP, Hvar.
    destruct Hloop as [Hwf' _ _ _ _ _ _ Hlast _ _ _ _].
    split; [by destruct Hwf' as (_&_&?&_)|].
    intros it Hit. destruct (Hlast it Hit) as (s0 & Hpost).
    destruct Hpost as [_ _ _ Hlen _ Hchain _ _ _].
    split; [done|]. intros k loc Hk.
    destruct (Hchain k loc Hk) as (P & H1 & H2 & _). by exists P.
Qed.

(** X17.  From the second outer iteration of a call on, the delta used at a
    stage [k >= 1] is the covariance vector of the stage minus the one the
    same stage had in the iteration before. *)
Lemma delta_matches_previous_iteration tol n s i k it it' loc loc' :
  wf_state s ->
  trace (solve self tol n s) !! i = Some it ->
  trace (solve self tol n s) !! (i + 1) = Some it' ->
  1 <= k ->
  stage_locals it !! k = Some loc ->
  stage_locals it' !! k = Some loc' ->
  dP_bar_vec loc' = vec_sub (P_vec_stage loc') (P_vec_stage loc).
Proof.
  intros Hwf Hi Hi' Hk Hloc Hloc'.
  destruct (solve_run tol n s Hwf) as (s' & tr & ex & Hrun & Hloop).
  destruct (solve_unfold tol n s s' tr ex Hrun) as (Htr & _).
  rewrite Htr in *.
  destruct Hloop as [_ _ _ _ _ _ _ _ _ Hcons _ _].
  destruct (Hcons i it it' Hi Hi') as (sa & sb & sc & Hab & Hbc).
  destruct Hab as [_ _ _ _ _ _ Hdelta _ _].
  destruct Hbc as [_ _ _ _ _ _ Hdelta' _ _].
  destruct (Hdelta k loc Hloc) as (Hprev & _).
  destruct (Hdelta' k loc' Hloc') as (_ & ->).
  destruct k as [|k]; [lia|]. simpl. unfold read. rewrite Hprev. done.
Qed.

(** At stage 0 the delta is taken against whatever snapshot the pass finds:
    the one the call started with in the first outer iteration, and the
    entry of index [N] that the iteration before the previous one computed
    in the later ones. *)
Lemma delta_at_stage_0 tol n s it loc :
  wf_state s ->
  trace (solve self tol n s) !! 0 = Some it ->
  stage_locals it !! 0 = Some loc ->
  P_vec_stage loc = sym_mat2vec (Sigma_x0 self) /\
  dP_bar_vec loc =
  match P_bar_old_vec s with
  | None => zeros ((nx self + 1) * nx self / 2)
  | Some old => vec_sub (sym_mat2vec (Sigma_x0 self)) old
  end.
Proof.
  intros Hwf Hit Hloc.
  destruct (solve_run tol n s Hwf) as (s' & tr & ex & Hrun & Hloop).
  destruct (solve_unfold tol n s s' tr ex Hrun) as (Htr & _).
  rewrite Htr in *.
  destruct Hloop as [_ _ _ _ _ _ Hfirst _ _ _ _ _].
  destruct (Hfirst it) as (s1 & Hpost).
  { destruct tr; [done|]. simpl in *. done. }
  destruct Hpost as [Hwf1 _ _ _ _ _ Hdelta _ _].
  destruct (Hdelta 0 loc Hloc) as (HPv & HdP).
  destruct Hwf1 as (_ & _ & _ & HV0). rewrite HV0 in HPv.
  inversion HPv as [HPv']. rewrite <- HPv' in HdP. split; [done|].
  rewrite HdP. done.
Qed.

Lemma trace_solve tol n s :
  trace (solve self tol n s) =
  (outer_loop self tol (seq 0 n) None (init_solve_stats self n s)).1.2.
Proof.
  unfold solve. cbv zeta.
  destruct (outer_loop self tol (seq 0 n) None (init_solve_stats self n s))
    as [[s' tr] [[i|]|e]]; done.
Qed.







(** *** The statistics *)

Lemma update_stage_stats i stage s :
  solve_stats_scalars (update_stage self i stage s).1 = solve_stats_scalars s.
Proof.
  unfold update_stage, delta_P_bar_vec, solve_stats_scalars. cbv zeta. state_simpl.
  destruct (P_bar_old_vec s) as [old|].
  - destruct (read (P_bar_all_vec s) stage) as [P_vec|]; [|reflexivity].
    cbn [mbind option_bind].
    destruct (read (P_bar_all s) stage) as [P|]; [|reflexivity].
    match goal with |- context [read (<[?k := ?x]> ?l) stage] =>
      destruct (read (<[k := x]> l) stage) end; reflexivity.
  - destruct (read (P_bar_all s) stage) as [P|]; [|reflexivity].
    match goal with |- context [read (<[?k := ?x]> ?l) stage] =>
      destruct (read (<[k := x]> l) stage) end; reflexivity.
Qed.

Lemma update_stages_stats i stages s :
  solve_stats_scalars (update_stages self i stages s).1 = solve_stats_scalars s.
Proof.
  revert s. induction stages as [|stage rest IH]; intros s; [reflexivity|].
  cbn [update_stages]. pose proof (update_stage_stats i stage s) as H1.
  destruct (update_stage self i stage s) as [s1 [loc|e]]; [|exact H1].
  pose proof (IH s1) as H2.
  destruct (update_stages self i rest s1) as [s2 [locs|e]]; simpl in *; congruence.
Qed.

Lemma outer_iteration_stats i s :
  solve_stats_scalars (outer_iteration self i s).1 = solve_stats_scalars s.
Proof.
  unfold outer_iteration. cbv zeta.
  pose proof (update_stages_stats i (seq 0 (N self))
                (get_gp_sensitivities self i (query_nodes self i s))) as H1.
  destruct (iteration_start_keeps self i s) as (_ & _ & _ & K4 & K5 & _).
  assert (solve_stats_scalars (get_gp_sensitivities self i (query_nodes self i s)) =
          solve_stats_scalars s) as H0.
  { unfold solve_stats_scalars. by rewrite K4, K5. }
  destruct (update_stages self i (seq 0 (N self))
              (get_gp_sensitivities self i (query_nodes self i s))) as [s1 [locs|e]];
    simpl in H1; rewrite <- H0, <- H1; reflexivity.
Qed.

Lemma outer_loop_stats tol its last0 s :
  solve_stats_scalars (outer_loop self tol its last0 s).1.1 = solve_stats_scalars s.
Proof.
  revert last0 s. induction its as [|i rest IH]; intros last0 s; [reflexivity|].
  cbn [outer_loop]. pose proof (outer_iteration_stats i s) as H1.
  destruct (outer_iteration self i s) as [s1 [it|e]]; [|exact H1].
  destruct (negb (Z.eqb (status it) 0)); [exact H1|].
  destruct (s_ltb (py_max (residuals it)) tol); [exact H1|].
  pose proof (IH (Some i) s1) as H2.
  destruct (outer_loop self tol rest (Some i) s1) as [[s2 tr] ex].
  simpl in *. congruence.
Qed.

(** C10.  If [solve] raises for a solver status other than 0, "n_iter" is
    still 0 and "timings_total" still 0.0, and [get_solve_stats] reports
    them so, every array under "timings" cut to length 0. *)
Theorem stats_unfinalized_on_failure tol n s status i :
  raised (solve self tol n s) = Some (SolverFailure status i) ->
  n_iter (solve_stats (final (solve self tol n s))) = 0 /\
  timings_total (solve_stats (final (solve self tol n s))) = 0%S /\
  data_n_iter (get_solve_stats self (final (solve self tol n s))).2 = 0 /\
  data_timings_total (get_solve_stats self (final (solve self tol n s))).2 = 0%S /\
  forall key arr,
    data_timings (get_solve_stats self (final (solve self tol n s))).2 !! key = Some arr ->
    length arr = 0.
Proof.
  intros Hraised.
  assert (solve_stats_scalars (final (solve self tol n s)) = (0, 0%S)) as Hstats.
  { revert Hraised. unfold solve. cbv zeta.
    pose proof (outer_loop_stats tol (seq 0 n) None (init_solve_stats self n s)) as H.
    destruct (outer_loop self tol (seq 0 n) None (init_solve_stats self n s))
      as [[s' tr] [[j|]|e]]; state_simpl; intros Hr; try discriminate Hr.
    exact H. }
  unfold solve_stats_scalars in Hstats. injection Hstats as Hn Ht.
  split; [exact Hn|]. split; [exact Ht|].
  unfold get_solve_stats.
  destruct (get_solution self (final (solve self tol n s))) as [[X U] P].
  state_simpl. cbn [data_n_iter data_timings_total data_timings snd].
  split; [exact Hn|]. split; [exact Ht|].
  intros key arr. rewrite Hn, lookup_fmap.
  destruct (timings (solve_stats (final (solve self tol n s))) !! key) as [a|];
    simpl; intros Harr; [|discriminate Harr].
  injection Harr as <-. reflexivity.
Qed.

(** *** The augmented stage model *)

Lemma update_stage_locals i stage s s' loc :
  update_stage self i stage s = (s', inl loc) -> locals_post self stage s loc.
Proof.
  unfold update_stage, delta_P_bar_vec. cbv zeta. state_simpl.
  destruct (P_bar_old_vec s) as [old|].
  - destruct (read (P_bar_all_vec s) stage) as [P_vec|]; [|intros H; discriminate H].
    cbn [mbind option_bind].
    destruct (read (P_bar_all s) stage) as [P|]; [|intros H; discriminate H].
    match goal with |- context [read (<[?k := ?x]> ?l) stage] =>
      destruct (read (<[k := x]> l) stage) end; [|intros H; discriminate H].
    intros H. injection H as _ <-. split; reflexivity.
  - destruct (read (P_bar_all s) stage) as [P|]; [|intros H; discriminate H].
    match goal with |- context [read (<[?k := ?x]> ?l) stage] =>
      destruct (read (<[k := x]> l) stage) end; [|intros H; discriminate H].
    intros H. injection H as _ <-. split; reflexivity.
Qed.

Lemma lookup_all_zero (l : vec R) j :
  Forall (fun x => x = 0%S) l -> default 0%S (l !! j) = 0%S.
Proof.
  intros Hl. destruct (l !! j) as [x|] eqn:Hx; [|reflexivity].
  simpl. eapply (proj1 (Forall_forall _ _) Hl). by eapply list_elem_of_lookup_2.
Qed.

Lemma Forall_zeros n : Forall (fun x : R => x = 0%S) (zeros n).
Proof. unfold zeros. by apply Forall_replicate. Qed.

Lemma row_replicate_zeros a c stage :
  Forall (fun x : R => x = 0%S) (row (replicate a (zeros c)) stage).
Proof.
  unfold row. destruct (replicate a (zeros c) !! stage) as [r|] eqn:Hr; simpl.
  - apply lookup_replicate in Hr as [-> _]. apply Forall_zeros.
  - constructor.
Qed.

Lemma slice3_zeros a b c stage lo m :
  all_zero (slice3 (R:=R) (replicate a (replicate b (zeros c))) stage lo m).
Proof.
  intros i j. unfold mget, slice3. cbn [data].
  rewrite list_lookup_fmap.
  destruct (replicate a (replicate b (zeros c)) !! i) as [plane|] eqn:Hp;
    [|reflexivity].
  apply lookup_replicate in Hp as [-> _]. cbn [fmap option_fmap option_map mbind option_bind].
  apply lookup_all_zero. apply Forall_take, Forall_drop, row_replicate_zeros.
Qed.

Lemma matvec_all_zero A (v : vec R) :
  Forall (fun x => x = 0%S) v -> matvec A v = zeros (rows A).
Proof.
  intros Hv. unfold matvec. rewrite <- (mk_vec_zero (rows A)). unfold mk_vec.
  apply list_fmap_ext. intros _ i _. rewrite <- (sum_n_zero (cols A)).
  apply sum_n_ext. intros k _. unfold vget. rewrite lookup_all_zero by done.
  apply (Rmul_0_r_scalar (mget A i k)).
Qed.

(** Without a GP model, the locals of a pass are those of the nominal model. *)
Lemma locals_post_zero_gp stage s loc :
  zero_gp s -> locals_post self stage s loc ->
  wf_mat (A_nom loc) -> wf_mat (B_nom loc) -> length (x_nom loc) <= rows (B self) ->
  A_total loc = A_nom loc /\ B_total loc = B_nom loc /\
  f_hat loc =
  vec_sub (vec_sub (x_nom loc) (matvec (A_nom loc) (x_stage loc)))
          (matvec (B_nom loc) (u_stage loc)).
Proof.
  intros [Hmean Hdy] [_ _ HA HB Hf _ _ _ _] HwfA HwfB Hx.
  rewrite Hdy in HA, HB. rewrite Hmean in Hf.
  assert (A_total loc = A_nom loc) as HA'.
  { rewrite HA. apply mat_add_all_zero; [done|].
    apply matmul_all_zero, slice3_zeros. }
  assert (B_total loc = B_nom loc) as HB'.
  { rewrite HB. apply mat_add_all_zero; [done|].
    apply matmul_all_zero, slice3_zeros. }
  split; [done|]. split; [done|].
  rewrite Hf, HA', HB'.
  rewrite (matvec_all_zero (B self)) by apply row_replicate_zeros.
  rewrite vec_add_zeros by done. reflexivity.
Qed.

(** C3.  Every pass of the stage loop computes
    [A_total = A_nom + B @ mean_dy[:, k, 0:nx]],
    [B_total = B_nom + B @ mean_dy[:, k, nx:nx+nu]] and
    [f_hat = x_nom + B @ mean[k] - A_total @ x_k - B_total @ u_k]; without a
    GP model [mean] and [mean_dy] are the zero arrays of [__init__] in every
    call, so that [A_total = A_nom], [B_total = B_nom] and
    [f_hat = x_nom - A_nom @ x_k - B_nom @ u_k]. *)
Theorem augmented_stage_model :
  (forall i stage s s' loc,
     update_stage self i stage s = (s', inl loc) ->
     A_total loc =
       mat_add (A_nom loc) (matmul (B self) (slice3 (mean_dy s) stage 0 (nx self))) /\
     B_total loc =
       mat_add (B_nom loc)
         (matmul (B self) (slice3 (mean_dy s) stage (nx self) (nu self))) /\
     f_hat loc =
       vec_sub (vec_sub (vec_add (x_nom loc) (matvec (B self) (row (mean s) stage)))
                        (matvec (A_total loc) (row (x_hat_all s) stage)))
               (matvec (B_total loc) (row (u_hat_all s) stage))) /\
  (gp_sensitivities self = None ->
   (forall ocp0 sim0, zero_gp (init self ocp0 sim0)) /\
   forall tol n s,
     wf_state s -> zero_gp s ->
     zero_gp (final (solve self tol n s)) /\
     forall it k loc,
       it ∈ trace (solve self tol n s) -> stage_locals it !! k = Some loc ->
       wf_mat (A_nom loc) -> wf_mat (B_nom loc) ->
       length (x_nom loc) <= rows (B self) ->
       A_total loc = A_nom loc /\ B_total loc = B_nom loc /\
       f_hat loc =
       vec_sub (vec_sub (x_nom loc) (matvec (A_nom loc) (x_stage loc)))
               (matvec (B_nom loc) (u_stage loc))).
Proof.
  split.
  - intros i stage s s' loc Hstep.
    destruct (update_stage_locals i stage s s' loc Hstep) as [Hx Hu HA HB Hf _ _ _ _].
    rewrite <- Hx, <- Hu. done.
  - intros Hgp. split; [intros ocp0 sim0; split; reflexivity|].
    intros tol n s Hwf [Hmean Hdy].
    destruct (solve_run tol n s Hwf) as (s' & tr & ex & Hrun & Hloop).
    destruct (solve_unfold tol n s s' tr ex Hrun)
      as (Htr & _ & _ & _ & _ & Hm & Hd & _).
    destruct Hloop as [_ _ _ Lgp _ _ _ _ Lall _ _ _].
    destruct (Lgp Hgp) as (Lm & Ld & _).
    split.
    + split; [rewrite Hm, Lm|rewrite Hd, Ld]; done.
    + intros it k loc Hit Hloc HwfA HwfB Hx. rewrite Htr in Hit.
      destruct (Lall it Hit) as (sa & sb & Hab & Hsb).
      destruct (Hsb Hgp) as (Hsm & Hsd).
      destruct Hab as [_ _ _ _ _ _ _ Hlocals _].
      apply (locals_post_zero_gp k sb); [|by apply Hlocals|done..].
      split; [rewrite Hsm|rewrite Hsd]; done.
Qed.

End SolveFacts.

(** ** Runs of the small instance *)

(** C1, at the input where the program departs from it.  Three outer
    iterations on the small instance: at stage 0 of the third, the covariance
    vector is [1] as it was in the second, so that their difference is [0],
    yet the delta used is [-2], taken against the entry of index [N] that the
    first iteration computed.  At stage 1 the delta is 26 - 10. *)
Theorem stale_delta_at_stage_0 :
  raised demo_ok_run3 = None /\
  covariance_vec_read demo_ok_run3 1 0 = Some ([1%Z] : vec ZScalar) /\
  covariance_vec_read demo_ok_run3 2 0 = Some ([1%Z] : vec ZScalar) /\
  delta_used demo_ok_run3 2 0 = Some ([(-2)%Z] : vec ZScalar) /\
  vec_sub (R:=ZScalar) [1%Z] [1%Z] = [0%Z] /\
  covariance_vec_read demo_ok_run3 1 1 = Some ([10%Z] : vec ZScalar) /\
  covariance_vec_read demo_ok_run3 2 1 = Some ([26%Z] : vec ZScalar) /\
  delta_used demo_ok_run3 2 1 = Some ([16%Z] : vec ZScalar).
Proof. vm_compute. repeat split; reflexivity. Qed.

(** C2, at the input where the program departs from it.  Two outer
    iterations on the small instance, then a second call on the same object:
    [solve] has no statement that clears the snapshot, so the second call
    starts with the one the first call left, [3], the entry of index [N]
    that its first outer iteration had computed.  The first pass of the
    first outer iteration of the second call reads the covariance vector [1]
    and uses the delta [1] - [3] = [-2], not the zero delta of the branch
    that the source marks [# i == 0]. *)
Theorem snapshot_stale_on_second_call :
  P_bar_old_vec demo_ok_new = None /\
  raised (solve demo_ok (0%Z : ZScalar) 2 demo_ok_new) = None /\
  P_bar_old_vec demo_ok_after_first = Some ([3%Z] : vec ZScalar) /\
  P_bar_old_vec (init_solve_stats demo_ok 1 demo_ok_after_first) =
    Some ([3%Z] : vec ZScalar) /\
  raised demo_ok_second = None /\
  covariance_vec_read demo_ok_second 0 0 = Some ([1%Z] : vec ZScalar) /\
  delta_used demo_ok_second 0 0 = Some ([(-2)%Z] : vec ZScalar) /\
  delta_used demo_ok_second 0 0 <> Some (zeros 1).
Proof. vm_compute. repeat split; (reflexivity || discriminate). Qed.


Section Edge.
Context {R : Scalar} {HR : Exact R}.
Variable self : ZoroAcados R.

(** C7, at the input where the program departs from it.  With
    [n_iter_max = 0] no iteration runs and no solver status is read, yet
    [solve] raises: [i + 1] reads a loop variable that was never bound. *)
Theorem solve_zero_cap_raises (tol : R) (s : ZoroState self) :
  raised (solve self tol 0 s) = Some UnboundLocalError /\
  trace (solve self tol 0 s) = [] /\
  n_iter (solve_stats (final (solve self tol 0 s))) = 0.
Proof. repeat split; reflexivity. Qed.

(** C8, at the input where the program departs from it.  With
    [n_iter_max = 0], [solve] raises although the solver was never called,
    and what it raises reports no status. *)
Theorem solve_raises_without_feedback_solve (tol : R) (s : ZoroState self) :
  (exists e, raised (solve self tol 0 s) = Some e) /\
  (forall status i, raised (solve self tol 0 s) <> Some (SolverFailure status i)) /\
  ocp_solver (final (solve self tol 0 s)) = ocp_solver s.
Proof.
  split; [by exists UnboundLocalError|]. split; [|reflexivity].
  intros status i H. discriminate H.
Qed.
End Edge.


Lemma vec2sym_mat_sym_mat2vec_witness :
  symmetric demo_M /\
  length (sym_mat2vec demo_M) = 6 /\ vec2sym_mat (sym_mat2vec demo_M) 3 = demo_M.
Proof.
  split; [reflexivity|]. apply (vec2sym_mat_sym_mat2vec demo_M). reflexivity.
Defined.


Lemma covariance_chain_invariant_witness :
  wf_state demo_ok_new /\
  P_bar_all (final (solve demo_ok (0%Z : ZScalar) 3 demo_ok_new)) !! 0 =
  Some (Some (Sigma_x0 demo_ok)).
Proof.
  assert (wf_state demo_ok_new) as Hwf by (repeat split; reflexivity).
  split; [exact Hwf|].
  apply (proj2 (covariance_chain_invariant demo_ok demo_ok_new Hwf) (0%Z : ZScalar) 3).
Defined.


Lemma stats_unfinalized_on_failure_witness :
  raised (solve demo_fail (0%Z : ZScalar) 3 demo_fail_new) = Some (SolverFailure 4 1) /\
  n_iter (solve_stats (final (solve demo_fail (0%Z : ZScalar) 3 demo_fail_new))) = 0 /\
  data_n_iter
    (get_solve_stats demo_fail
       (final (solve demo_fail (0%Z : ZScalar) 3 demo_fail_new))).2 = 0.
Proof.
  assert (raised (solve demo_fail (0%Z : ZScalar) 3 demo_fail_new) =
          Some (SolverFailure 4 1)) as Hraised by (vm_compute; reflexivity).
  split; [exact Hraised|].
  destruct (stats_unfinalized_on_failure demo_fail (0%Z : ZScalar) 3 demo_fail_new 4 1
              Hraised) as (Hn & _ & Hd & _).
  split; [exact Hn|exact Hd].
Defined.

Lemma augmented_stage_model_witness :
  update_stage demo_ok 0 0 demo_ok_stage0 =
    ((update_stage demo_ok 0 0 demo_ok_stage0).1, inl demo_ok_stage0_locals) /\
  A_total demo_ok_stage0_locals =
    mat_add (A_nom demo_ok_stage0_locals)
      (matmul (B demo_ok) (slice3 (mean_dy demo_ok_stage0) 0 0 (nx demo_ok))) /\
  gp_sensitivities demo_ok = None /\
  zero_gp (final (solve demo_ok (0%Z : ZScalar) 3 demo_ok_new)).
Proof.
  assert (update_stage demo_ok 0 0 demo_ok_stage0 =
          ((update_stage demo_ok 0 0 demo_ok_stage0).1, inl demo_ok_stage0_locals))
    as Hstep by (vm_compute; reflexivity).
  split; [exact Hstep|].
  split.
  - apply (proj1 (augmented_stage_model demo_ok) 0 0 demo_ok_stage0 _ _ Hstep).
  - split; [reflexivity|].
    apply (proj2 (augmented_stage_model demo_ok) eq_refl).
    + repeat split; reflexivity.
    + split; reflexivity.
Defined.

(** ** The codec, both ways *)

Section CodecFacts.
Context {R : Scalar} {HR : Exact R}.

Add Ring scalar_ring_codec : (@scalar_ring R HR).

Implicit Types (M A B P W : mat R) (v : vec R).

Lemma NoDup_triu_indices n : NoDup (triu_indices n).
Proof.
  unfold triu_indices. apply NoDup_bind.
  - intros i1 i2 [a b] _ _ H1 H2.
    apply list_elem_of_fmap in H1 as (j1 & E1 & _).
    apply list_elem_of_fmap in H2 as (j2 & E2 & _). congruence.
  - intros i _. apply NoDup_fmap_2; [|apply NoDup_seq].
    intros j1 j2 E. congruence.
  - apply NoDup_seq.
Qed.

(** Any vector as long as a duplicate-free index list is a table over it. *)
Lemma fmap_of_NoDup {K} `{EqDecision K} (l : list K) v :
  NoDup l -> length v = length l -> exists g : K -> R, v = g <$> l.
Proof.
  intros Hnd. revert v. induction Hnd as [|a l Ha Hnd IH]; intros v Hlen.
  - destruct v; [|done]. by exists (fun _ => 0%S).
  - destruct v as [|x v]; [done|]. simpl in Hlen.
    destruct (IH v) as [g Hg]; [lia|].
    exists (fun e => if decide (e = a) then x else g e).
    rewrite fmap_cons, decide_True by done. f_equal. rewrite Hg.
    apply list_fmap_ext. intros k e He. rewrite decide_False; [done|].
    intros ->. apply Ha. by eapply list_elem_of_lookup_2.
Qed.

Lemma triu_indices_in_range n :
  Forall (fun e : nat * nat => e.1 < n /\ e.2 < n) (triu_indices n).
Proof.
  apply Forall_forall. intros [a b] Hab. apply elem_of_triu_indices in Hab.
  simpl. lia.
Qed.

Lemma vec2sym_mat_shape v n : has_shape n n (vec2sym_mat v n).
Proof.
  unfold vec2sym_mat.
  pose proof (wf_mk_mat (R:=R) n n (fun _ _ => 0%S)) as Hz.
  destruct (assign_at_shape false (zeros_mat n n) (triu_indices n) v Hz)
    as (Hwf1 & Hr1 & Hc1).
  destruct (assign_at_shape true _ (triu_indices n) v Hwf1) as (Hwf2 & Hr2 & Hc2).
  split; [done|]. split; [by rewrite Hr2, Hr1|by rewrite Hc2, Hc1].
Qed.

(** The entries of the decoded matrix: both (i, j) and (j, i) hold the value
    stored for the pair in the upper triangle. *)
Lemma mget_vec2sym_mat (g : nat * nat -> R) n i j :
  i < n -> j < n ->
  mget (vec2sym_mat (g <$> triu_indices n) n) i j = g (i `min` j, i `max` j).
Proof.
  intros Hi Hj. unfold vec2sym_mat.
  pose proof (wf_mk_mat (R:=R) n n (fun _ _ => 0%S)) as Hz.
  pose proof (triu_indices_in_range n) as Hidx.
  destruct (assign_at_shape false (zeros_mat n n) (triu_indices n)
              (g <$> triu_indices n) Hz) as (Hwf1 & Hr1 & Hc1).
  rewrite (mget_assign_at true) by (done || (rewrite Hr1; done) || congruence).
  destruct (decide ((j, i) ∈ triu_indices n)) as [Hin|Hnin].
  - apply elem_of_triu_indices in Hin.
    by rewrite Nat.min_r, Nat.max_l by lia.
  - rewrite elem_of_triu_indices in Hnin.
    rewrite (mget_assign_at false) by done.
    rewrite decide_True by (apply elem_of_triu_indices; lia).
    by rewrite Nat.min_l, Nat.max_r by lia.
Qed.

Lemma symmetric_intro M :
  wf_mat M -> cols M = rows M ->
  (forall i j, i < rows M -> j < rows M -> mget M i j = mget M j i) ->
  symmetric M.
Proof.
  intros Hwf Hsq Hsym. unfold symmetric.
  apply mat_ext; [apply wf_mk_mat|done|done|by simpl|].
  simpl. rewrite Hsq. intros i j Hi Hj. unfold transpose.
  rewrite mget_mk_mat by lia. by apply Hsym.
Qed.

Lemma vec2sym_mat_table_symmetric (g : nat * nat -> R) n :
  symmetric (vec2sym_mat (g <$> triu_indices n) n).
Proof.
  destruct (vec2sym_mat_shape (g <$> triu_indices n) n) as (Hwf & Hr & Hc).
  apply symmetric_intro; [done|congruence|].
  rewrite Hr. intros i j Hi Hj. rewrite !mget_vec2sym_mat by done.
  by rewrite Nat.min_comm, Nat.max_comm.
Qed.

Lemma vec2sym_mat_sym v n :
  length v = n * (n + 1) / 2 -> symmetric (vec2sym_mat v n).
Proof.
  intros Hlen.
  destruct (fmap_of_NoDup (triu_indices n) v) as [g ->];
    [apply NoDup_triu_indices|by rewrite length_triu_indices|].
  apply vec2sym_mat_table_symmetric.
Qed.

Lemma sym_mat2vec_table (g : nat * nat -> R) n :
  sym_mat2vec (vec2sym_mat (g <$> triu_indices n) n) = g <$> triu_indices n.
Proof.
  destruct (vec2sym_mat_shape (g <$> triu_indices n) n) as (Hwf & Hr & Hc).
  unfold sym_mat2vec. rewrite Hr.
  apply list_eq. intros k. rewrite !list_lookup_fmap.
  destruct (triu_indices n !! k) as [[a b]|] eqn:Hk; [|done]. simpl. f_equal.
  apply list_elem_of_lookup_2, elem_of_triu_indices in Hk.
  rewrite mget_vec2sym_mat by lia.
  by rewrite Nat.min_l, Nat.max_r by lia.
Qed.

Lemma roundtrip_symmetric M :
  symmetric M -> vec2sym_mat (sym_mat2vec M) (rows M) = M.
Proof.
  intros HM. destruct (symmetric_inv M HM) as (Hwf & Hsq & Hsym).
  destruct (vec2sym_mat_shape (sym_mat2vec M) (rows M)) as (Hwf' & Hr & Hc).
  apply mat_ext; [done|done|done|congruence|].
  rewrite Hr, Hc. intros i j Hi Hj. unfold sym_mat2vec.
  rewrite (mget_vec2sym_mat (fun ij => mget M ij.1 ij.2)) by done. simpl.
  destruct (decide (i <= j)).
  - by rewrite Nat.min_l, Nat.max_r by lia.
  - rewrite Nat.min_r, Nat.max_l by lia. apply Hsym; done.
Qed.

(** X1.  Decoding then encoding gives back the vector: for [v] with
    n (n + 1) / 2 entries, [sym_mat2vec (vec2sym_mat v n)] is [v]. *)
Theorem sym_mat2vec_vec2sym_mat v n :
  length v = n * (n + 1) / 2 ->
  sym_mat2vec (vec2sym_mat v n) = v.
Proof.
  intros Hlen.
  destruct (fmap_of_NoDup (triu_indices n) v) as [g ->];
    [apply NoDup_triu_indices|by rewrite length_triu_indices|].
  apply sym_mat2vec_table.
Qed.

(** X2.  [vec2sym_mat v n] is an n x n symmetric matrix whenever [v] has
    n (n + 1) / 2 entries. *)
Theorem vec2sym_mat_symmetric v n :
  length v = n * (n + 1) / 2 ->
  has_shape n n (vec2sym_mat v n) /\ symmetric (vec2sym_mat v n).
Proof.
  intros Hlen. split; [apply vec2sym_mat_shape|by apply vec2sym_mat_sym].
Qed.

(** X3.  Encoding reads the upper triangle only: on any square matrix [M],
    entry (i, j) of [vec2sym_mat (sym_mat2vec M) n] is [M[min i j, max i j]];
    so the round trip gives [M] back exactly when [M] is symmetric. *)
Theorem vec2sym_mat_sym_mat2vec_upper M :
  wf_mat M -> cols M = rows M ->
  (forall i j, i < rows M -> j < rows M ->
     mget (vec2sym_mat (sym_mat2vec M) (rows M)) i j =
     mget M (i `min` j) (i `max` j)) /\
  (vec2sym_mat (sym_mat2vec M) (rows M) = M <-> symmetric M).
Proof.
  intros Hwf Hsq. split.
  - intros i j Hi Hj. unfold sym_mat2vec.
    by rewrite (mget_vec2sym_mat (fun ij => mget M ij.1 ij.2)) by done.
  - split; [|apply roundtrip_symmetric].
    intros <-. apply vec2sym_mat_sym, length_sym_mat2vec.
Qed.

End CodecFacts.

(** ** Propagation along a horizon *)

Section PropagationFacts.
Context {R : Scalar} {HR : Exact R}.

Add Ring scalar_ring_prop : (@scalar_ring R HR).

Implicit Types (M A B P W : mat R) (v : vec R).

Lemma P_propagation_shape P A B W :
  has_shape (rows A) (rows A) (P_propagation P A B W).
Proof. split; [apply wf_mk_mat|done]. Qed.

(** The loop of [propagate] over [a, a + n), on a list that holds the
    entries up to [a]. *)
Lemma propagate_loop_inl Afun Wfun B (y_all : list (vec R)) n a Pr :
  a + n <= length y_all -> a + n < length Pr ->
  exists out,
    propagate_loop Afun Wfun B y_all (seq a n) Pr = inl out /\
    length out = length Pr /\
    (forall k, k <= a -> out !! k = Pr !! k) /\
    (forall k y, a <= k < a + n -> y_all !! k = Some y ->
       exists Pk, out !! k = Some Pk /\
                  out !! (k + 1) = Some (P_propagation Pk (Afun y) B (Wfun y))).
Proof.
  revert a Pr. induction n as [|n IH]; intros a Pr Hy HPr.
  - exists Pr. simpl. split; [done|]. split; [done|]. split; [done|].
    intros k y Hk. lia.
  - cbn [seq propagate_loop].
    destruct (y_all !! a) as [y|] eqn:Hya;
      [|apply lookup_ge_None_1 in Hya; lia].
    destruct (Pr !! a) as [Pa|] eqn:HPa;
      [|apply lookup_ge_None_1 in HPa; lia].
    simpl.
    destruct (IH (S a) (<[a + 1 := P_propagation Pa (Afun y) B (Wfun y)]> Pr))
      as (out & Hout & Hlen & Hkeep & Hchain);
      [lia|rewrite length_insert; lia|].
    rewrite length_insert in Hlen.
    exists out. split; [done|]. split; [done|]. split.
    + intros k Hk. rewrite Hkeep by lia. apply list_lookup_insert_ne. lia.
    + intros k y' Hk Hy'. destruct (decide (k = a)) as [->|Hne].
      * assert (y' = y) as -> by congruence.
        exists Pa. split.
        -- rewrite Hkeep by lia. rewrite list_lookup_insert_ne by lia. done.
        -- rewrite Hkeep by lia. apply list_lookup_insert_eq. lia.
      * apply Hchain; [lia|done].
Qed.

Lemma propagate_loop_inr Afun Wfun B (y_all : list (vec R)) n a Pr :
  a <= length y_all -> length y_all < a + n ->
  propagate_loop Afun Wfun B y_all (seq a n) Pr = inr IndexError.
Proof.
  revert a Pr. induction n as [|n IH]; intros a Pr Ha Hy; [lia|].
  cbn [seq propagate_loop].
  destruct (y_all !! a) as [y|] eqn:Hya; [|done].
  apply lookup_lt_Some in Hya. apply IH; lia.
Qed.

Lemma propagate_inl P0 Afun B Wfun (y_all : list (vec R)) N_sim :
  N_sim <= length y_all ->
  exists out,
    propagate P0 Afun B Wfun y_all N_sim = inl out /\
    length out = N_sim + 1 /\
    out !! 0 = Some P0 /\
    (forall i y, i < N_sim -> y_all !! i = Some y ->
       exists Pi, out !! i = Some Pi /\
                  out !! (i + 1) = Some (P_propagation Pi (Afun y) B (Wfun y))).
Proof.
  intros Hy. unfold propagate.
  set (Pr := <[0 := P0]> (replicate (N_sim + 1) (zeros_mat (rows P0) (cols P0)))).
  assert (length Pr = N_sim + 1) as HPr.
  { subst Pr. by rewrite length_insert, length_replicate. }
  destruct (propagate_loop_inl Afun Wfun B y_all N_sim 0 Pr)
    as (out & Hout & Hlen & Hkeep & Hchain); [lia|lia|].
  exists out. split; [done|]. split; [congruence|]. split.
  - rewrite Hkeep by lia. subst Pr. apply list_lookup_insert_eq.
    rewrite length_replicate. lia.
  - intros i y Hi Hyi. apply Hchain; [lia|done].
Qed.

(** X4.  [propagate] returns [N_sim + 1] matrices, the first one [P0] and
    each next one [P_propagation] of the one before at the row of [y_all]
    with its index; it raises [IndexError] exactly when [y_all] has fewer than
    [N_sim] rows. *)
Theorem propagate_spec P0 Afun B Wfun (y_all : list (vec R)) N_sim :
  match propagate P0 Afun B Wfun y_all N_sim with
  | inl out =>
    N_sim <= length y_all /\
    length out = N_sim + 1 /\
    out !! 0 = Some P0 /\
    (forall i y, i < N_sim -> y_all !! i = Some y ->
       exists Pi, out !! i = Some Pi /\
                  out !! (i + 1) = Some (P_propagation Pi (Afun y) B (Wfun y)))
  | inr e => e = IndexError /\ length y_all < N_sim
  end.
Proof.
  destruct (decide (N_sim <= length y_all)) as [Hy|Hy].
  - destruct (propagate_inl P0 Afun B Wfun y_all N_sim Hy) as (out & -> & H).
    by split.
  - unfold propagate. rewrite propagate_loop_inr by lia. split; [done|lia].
Qed.

(** X5.  Every matrix that [propagate] returns is an n x n array, when
    [P0] is one and every [Afun(y)] has n rows. *)
Theorem propagate_shapes P0 Afun B Wfun (y_all : list (vec R)) N_sim out n :
  has_shape n n P0 ->
  (forall y, rows (Afun y) = n) ->
  propagate P0 Afun B Wfun y_all N_sim = inl out ->
  length out = N_sim + 1 /\ Forall (has_shape n n) out.
Proof.
  intros HP0 HA Hrun.
  destruct (decide (N_sim <= length y_all)) as [Hy|Hy];
    [|unfold propagate in Hrun; rewrite propagate_loop_inr in Hrun by lia; done].
  destruct (propagate_inl P0 Afun B Wfun y_all N_sim Hy)
    as (out' & Hout & Hlen & H0 & Hchain).
  rewrite Hout in Hrun. injection Hrun as ->. split; [done|].
  apply Forall_lookup. intros k P HP. destruct k as [|k].
  - rewrite H0 in HP. injection HP as <-. done.
  - assert (k < N_sim) as Hk by (apply lookup_lt_Some in HP; lia).
    destruct (y_all !! k) as [y|] eqn:Hyk;
      [|apply lookup_ge_None_1 in Hyk; lia].
    destruct (Hchain k y Hk Hyk) as (Pk & HPk & HPk1).
    replace (k + 1) with (S k) in HPk1 by lia.
    rewrite HPk1 in HP. injection HP as <-.
    rewrite <- (HA y). apply P_propagation_shape.
Qed.

(** The loop of [P_propagation_with_y] over [a, a + n) when [P_vec] and
    [A_nom] have enough rows. *)
Lemma P_propagation_with_y_loop_inl Bt (variance : list (vec R)) mean_dy
    (P_vec : list (vec R)) (A_nom : list (mat R)) n a (acc : list (vec R)) :
  a + n <= length P_vec -> a + n <= length A_nom -> a + n <= length acc ->
  exists out,
    P_propagation_with_y_loop Bt variance mean_dy P_vec A_nom (seq a n) acc = inl out /\
    length out = length acc /\
    (forall k, k < a -> out !! k = acc !! k) /\
    (forall k Pv An, a <= k < a + n -> P_vec !! k = Some Pv -> A_nom !! k = Some An ->
       out !! k = Some (sym_mat2vec (P_prop_stage Bt variance mean_dy Pv An k))).
Proof.
  revert a acc. induction n as [|n IH]; intros a acc HP HA Hacc.
  - exists acc. simpl. split; [done|]. split; [done|]. split; [done|].
    intros k Pv An Hk. lia.
  - cbn [seq P_propagation_with_y_loop].
    destruct (P_vec !! a) as [Pa|] eqn:HPa;
      [|apply lookup_ge_None_1 in HPa; lia].
    destruct (A_nom !! a) as [Aa|] eqn:HAa;
      [|apply lookup_ge_None_1 in HAa; lia].
    cbv zeta.
    destruct (IH (S a)
                (<[a := sym_mat2vec (P_prop_stage Bt variance mean_dy Pa Aa a)]> acc))
      as (out & Hout & Hlen & Hkeep & Hrows);
      [lia|lia|rewrite length_insert; lia|].
    rewrite length_insert in Hlen.
    exists out. split; [done|]. split; [done|]. split.
    + intros k Hk. rewrite Hkeep by lia. apply list_lookup_insert_ne. lia.
    + intros k Pv An Hk HPv HAn. destruct (decide (k = a)) as [->|Hne].
      * assert (Pv = Pa) as -> by congruence. assert (An = Aa) as -> by congruence.
        rewrite Hkeep by lia. apply list_lookup_insert_eq. lia.
      * apply Hrows; [lia|done|done].
Qed.

(** X6.  [P_propagation_with_y] with a bound [B], on [P_vec] and [A_nom] of
    at least as many rows as [y]: the result has one row per row of [y]; row
    [i] has nx (nx + 1) / 2 entries and is the upper triangle of the
    nx x nx matrix A P A^T + B diag(variance[i]) B^T as the loop computes
    it, where [P] is the decoded row [i] of [P_vec] and [A] is
    [A_nom[i] + B A_GP]; decoding the row gives that triangle, mirrored. *)
Theorem P_propagation_with_y_row covar_fun get_mean_dy Bt
    (y P_vec : list (vec R)) (A_nom : list (mat R)) i Pv An :
  length y <= length P_vec -> length y <= length A_nom -> i < length y ->
  P_vec !! i = Some Pv -> A_nom !! i = Some An ->
  rows An = rows Bt ->
  let A_prop := mat_add An (matmul Bt (slice3 (get_mean_dy y) i 0 (rows Bt))) in
  let P_prop :=
    P_propagation (vec2sym_mat Pv (rows Bt)) A_prop Bt (diag (row (covar_fun y) i)) in
  exists out,
    P_propagation_with_y covar_fun get_mean_dy (Some Bt) y P_vec A_nom = inl out /\
    length out = length y /\
    out !! i = Some (sym_mat2vec P_prop) /\
    length (sym_mat2vec P_prop) = (rows Bt + 1) * rows Bt / 2 /\
    has_shape (rows Bt) (rows Bt) P_prop /\
    (forall a b, a < rows Bt -> b < rows Bt ->
       mget (vec2sym_mat (sym_mat2vec P_prop) (rows Bt)) a b =
       mget P_prop (a `min` b) (a `max` b)).
Proof.
  intros HlP HlA Hi HPv HAn HAr A_prop P_prop.
  assert ((rows Bt + 1) * rows Bt = rows Bt * (rows Bt + 1)) as Hcomm by lia.
  unfold P_propagation_with_y.
  destruct (P_propagation_with_y_loop_inl Bt (covar_fun y) (get_mean_dy y) P_vec A_nom
              (length y) 0
              (replicate (length y) (zeros ((rows Bt + 1) * rows Bt / 2))))
    as (out & Hout & Hlen & _ & Hrows);
    [lia|lia|rewrite length_replicate; lia|].
  rewrite length_replicate in Hlen.
  assert (rows P_prop = rows Bt) as Hr by (simpl; done).
  exists out. split; [done|]. split; [done|].
  split; [|split; [|split]].
  - apply (Hrows i Pv An); [lia|done|done].
  - rewrite length_sym_mat2vec. by rewrite Hr, Hcomm.
  - split; [apply wf_mk_mat|]. simpl. by rewrite HAr.
  - intros a b Ha Hb. unfold sym_mat2vec. rewrite Hr.
    by rewrite (mget_vec2sym_mat (fun ij => mget P_prop ij.1 ij.2)) by done.
Qed.

End PropagationFacts.

(** ** The linear model and its parameters *)

Section LinearModelFacts.
Context {R : Scalar} {HR : Exact R}.
Variable self : ZoroAcados R.

Add Ring scalar_ring_lin : (@scalar_ring R HR).

Implicit Types (M A B P W : mat R) (v : vec R).

(** The concatenation of [c] blocks of [r] entries, block [j] being [h j]. *)
Lemma lookup_bind_seq {T : Type} (h : nat -> list T) (r c a i j : nat) :
  (forall k, length (h k) = r) -> i < r -> j < c ->
  (seq a c ≫= h) !! (j * r + i) = h (a + j) !! i.
Proof.
  intros Hlen Hi. revert a j. induction c as [|c IH]; intros a j Hj; [lia|].
  cbn [seq]. rewrite bind_cons. destruct j as [|j].
  - rewrite lookup_app_l by (rewrite Hlen; lia). by rewrite Nat.add_0_r.
  - rewrite lookup_app_r by (rewrite Hlen; lia). rewrite Hlen.
    replace (S j * r + i - r) with (j * r + i) by lia.
    rewrite IH by lia. f_equal. f_equal. lia.
Qed.

Lemma length_bind_seq {T : Type} (h : nat -> list T) (r c a : nat) :
  (forall k, length (h k) = r) -> length (seq a c ≫= h) = c * r.
Proof.
  intros Hlen. revert a. induction c as [|c IH]; intros a; [done|].
  cbn [seq]. rewrite bind_cons, length_app, Hlen, IH. lia.
Qed.

Lemma length_reshape_F A : length (reshape_F A) = cols A * rows A.
Proof.
  unfold reshape_F. apply length_bind_seq. intros k.
  by rewrite length_fmap, length_seq.
Qed.

(** Entry (i, j) is at position j * rows + i of the flattening. *)
Lemma lookup_reshape_F A i j :
  i < rows A -> j < cols A -> reshape_F A !! (j * rows A + i) = Some (mget A i j).
Proof.
  intros Hi Hj. unfold reshape_F.
  rewrite (lookup_bind_seq _ (rows A)); [|intros k; by rewrite length_fmap, length_seq|done|done].
  rewrite list_lookup_fmap, lookup_seq_lt by done. done.
Qed.

Lemma unflatten_reshape_F A :
  wf_mat A -> unflatten (rows A) (cols A) (reshape_F A) = A.
Proof.
  intros HA. rewrite <- (mk_mat_mget A HA) at 4. unfold unflatten.
  apply mk_mat_ext. intros i j Hi Hj. unfold vget.
  by rewrite lookup_reshape_F.
Qed.

Lemma length_matvec A v : length (matvec A v) = rows A.
Proof. apply length_mk_vec. Qed.

(** The parameter vector of a stage pass, cut at the offsets of
    [export_linear_model]. *)
Lemma stage_param_split stage s loc :
  locals_post self stage s loc ->
  rows (A_nom loc) = nx self -> cols (A_nom loc) = nx self ->
  rows (B_nom loc) = nx self -> cols (B_nom loc) = nu self ->
  length (x_nom loc) = nx self -> rows (B self) = nx self ->
  take (nx self ^ 2) (p loc) = reshape_F (A_total loc) /\
  take (nx self * nu self) (drop (nx self ^ 2) (p loc)) = reshape_F (B_total loc) /\
  take (nx self) (drop (nx self ^ 2 + nx self * nu self) (p loc)) = f_hat loc /\
  drop (nx self ^ 2 + nx self * nu self + nx self) (p loc) = P_vec_stage loc /\
  length (p loc) =
    nx self ^ 2 + nx self * nu self + nx self + length (P_vec_stage loc) /\
  has_shape (nx self) (nx self) (A_total loc) /\
  has_shape (nx self) (nu self) (B_total loc).
Proof.
  intros Hloc HAr HAc HBr HBc Hx HB.
  destruct Hloc as [_ _ HAt HBt Hf Hp _ _ _].
  assert (has_shape (nx self) (nx self) (A_total loc)) as HsA.
  { rewrite HAt. split; [apply wf_mk_mat|done]. }
  assert (has_shape (nx self) (nu self) (B_total loc)) as HsB.
  { rewrite HBt. split; [apply wf_mk_mat|done]. }
  destruct HsA as (HwA & HrA & HcA). destruct HsB as (HwB & HrB & HcB).
  assert (length (reshape_F (A_total loc)) = nx self ^ 2) as HlA.
  { rewrite length_reshape_F, HrA, HcA. simpl. lia. }
  assert (length (reshape_F (B_total loc)) = nx self * nu self) as HlB.
  { rewrite length_reshape_F, HrB, HcB. lia. }
  assert (length (f_hat loc) = nx self) as Hlf.
  { rewrite Hf. unfold vec_sub, vec_add.
    rewrite !length_zip_with, !length_matvec. lia. }
  rewrite Hp.
  split; [by rewrite take_app_length'|].
  rewrite (drop_app_length' _ _ (nx self ^ 2)) by done.
  split; [by rewrite take_app_length'|].
  assert (forall l : vec R,
            drop (nx self ^ 2 + nx self * nu self)
              (reshape_F (A_total loc) ++ reshape_F (B_total loc) ++ l) = l) as Hd.
  { intros l. rewrite <- drop_drop.
    rewrite (drop_app_length' _ _ (nx self ^ 2)) by done.
    by rewrite drop_app_length'. }
  split; [rewrite Hd; by rewrite take_app_length'|].
  split.
  { rewrite <- drop_drop, Hd. by rewrite drop_app_length'. }
  split; [rewrite !length_app; lia|].
  split; done.
Qed.

(** X7.  The linear model that [export_linear_model] builds reads the
    parameter vector that the stage pass writes as the pass's own [A_total],
    [B_total] and [f_hat]: evaluated with it at any (x, u), the model is
    [A_total @ x + B_total @ u + f_hat].  The column-major flattening in
    [solve] is the layout that the model's parameters have. *)
Theorem linear_model_reads_stage_params i stage s s' loc np (xv uv : vec R) :
  update_stage self i stage s = (s', inl loc) ->
  rows (A_nom loc) = nx self -> cols (A_nom loc) = nx self ->
  rows (B_nom loc) = nx self -> cols (B_nom loc) = nu self ->
  length (x_nom loc) = nx self -> rows (B self) = nx self ->
  f_expl_expr (export_linear_model (nx self) (nu self) np) xv uv (p loc) =
  vec_add (vec_add (matvec (A_total loc) xv) (matvec (B_total loc) uv)) (f_hat loc) /\
  disc_dyn_expr (export_linear_model (nx self) (nu self) np) xv uv (p loc) =
  vec_add (vec_add (matvec (A_total loc) xv) (matvec (B_total loc) uv)) (f_hat loc).
Proof.
  intros Hrun HAr HAc HBr HBc Hx HB.
  pose proof (update_stage_locals self _ _ _ _ _ Hrun) as Hloc.
  destruct (stage_param_split stage s loc Hloc HAr HAc HBr HBc Hx HB)
    as (HtA & HtB & Htf & _ & _ & (HwA & HrA & HcA) & (HwB & HrB & HcB)).
  assert (unflatten (nx self) (nx self) (reshape_F (A_total loc)) = A_total loc) as EA.
  { rewrite <- HrA at 1. rewrite <- HcA at 1. by apply unflatten_reshape_F. }
  assert (unflatten (nx self) (nu self) (reshape_F (B_total loc)) = B_total loc) as EB.
  { rewrite <- HrB at 1. rewrite <- HcB at 1. by apply unflatten_reshape_F. }
  cbn [export_linear_model f_expl_expr disc_dyn_expr].
  rewrite HtA, HtB, Htf, EA, EB. done.
Qed.

(** X8.  The parameter vector of a stage pass has the length that
    [transform_ocp] declares, and the constraint expression of the
    transformed problem reads the covariance vector of the stage in its
    tail. *)
Theorem stage_param_layout i stage s s' loc (ocp ocp' : AcadosOcp R) :
  update_stage self i stage s = (s', inl loc) ->
  rows (A_nom loc) = nx self -> cols (A_nom loc) = nx self ->
  rows (B_nom loc) = nx self -> cols (B_nom loc) = nu self ->
  length (x_nom loc) = nx self -> rows (B self) = nx self ->
  transform_ocp ocp = inl ocp' ->
  model_x (ocp_model ocp) = nx self -> model_u (ocp_model ocp) = nu self ->
  model_p (ocp_model ocp) = length (P_vec_stage loc) ->
  length (p loc) = length (parameter_values ocp') /\
  length (p loc) = model_p (ocp_model ocp') /\
  exists h h',
    con_h_expr (ocp_model ocp) = Some h /\
    con_h_expr (ocp_model ocp') = Some h' /\
    forall xv uv, h' xv uv (p loc) = h xv uv (P_vec_stage loc).
Proof.
  intros Hrun HAr HAc HBr HBc Hx HB Ht Hmx Hmu Hmp.
  pose proof (update_stage_locals self _ _ _ _ _ Hrun) as Hloc.
  destruct (stage_param_split stage s loc Hloc HAr HAc HBr HBc Hx HB)
    as (_ & _ & _ & Hdrop & Hlen & _ & _).
  unfold transform_ocp in Ht.
  destruct (con_h_expr (ocp_model ocp)) as [h|] eqn:Hh; [|done].
  injection Ht as <-.
  cbn [ocp_model parameter_values model_p con_h_expr export_linear_model].
  rewrite Hmx, Hmu, Hmp. unfold zeros. rewrite length_replicate.
  split; [done|]. split; [done|].
  exists h. eexists. split; [done|]. split; [reflexivity|].
  intros xv uv. cbv beta.
  replace (nx self * (nx self * 1)) with (nx self ^ 2) by (simpl; lia).
  by rewrite Hdrop.
Qed.

End LinearModelFacts.

(** ** Statistics *)

Section StatsFacts.
Context {R : Scalar} {HR : Exact R}.
Variable self : ZoroAcados R.

Implicit Types (s : ZoroState self) (m : gmap string (list R)).

(** *** The shape of the timing arrays *)

Lemma fmap_length_alter_alter m (f : R -> R) i key :
  length <$> alter (alter f i) key m = length <$> m.
Proof.
  apply map_eq. intros k. rewrite !lookup_fmap, lookup_alter.
  case_decide as Hk; [subst k|done].
  destruct (m !! key) as [arr|]; [|done]. simpl. by rewrite length_alter.
Qed.

Lemma fmap_length_alter_insert m (d : R) i key :
  length <$> alter (fun arr => <[i := d]> arr) key m = length <$> m.
Proof.
  apply map_eq. intros k. rewrite !lookup_fmap, lookup_alter.
  case_decide as Hk; [subst k|done].
  destruct (m !! key) as [arr|]; [|done]. simpl. by rewrite length_insert.
Qed.

Ltac timing_shape :=
  repeat (rewrite fmap_length_alter_alter || rewrite fmap_length_alter_insert).

Lemma update_stage_timing_shape i stage s :
  length <$> timings (solve_stats (update_stage self i stage s).1) =
  length <$> timings (solve_stats s).
Proof.
  unfold update_stage, delta_P_bar_vec. cbv zeta. state_simpl.
  destruct (P_bar_old_vec s) as [old|].
  - destruct (read (P_bar_all_vec s) stage) as [P_vec|]; cbn [mbind option_bind];
      [|state_simpl; by timing_shape].
    destruct (read (P_bar_all s) stage) as [P|]; [|state_simpl; by timing_shape].
    match goal with |- context [read (<[?k := ?x]> ?l) stage] =>
      destruct (read (<[k := x]> l) stage) end; state_simpl; by timing_shape.
  - destruct (read (P_bar_all s) stage) as [P|]; [|state_simpl; by timing_shape].
    match goal with |- context [read (<[?k := ?x]> ?l) stage] =>
      destruct (read (<[k := x]> l) stage) end; state_simpl; by timing_shape.
Qed.

Lemma update_stages_timing_shape i stages s :
  length <$> timings (solve_stats (update_stages self i stages s).1) =
  length <$> timings (solve_stats s).
Proof.
  revert s. induction stages as [|stage rest IH]; intros s; [reflexivity|].
  cbn [update_stages]. pose proof (update_stage_timing_shape i stage s) as H1.
  destruct (update_stage self i stage s) as [s1 [loc|e]]; [|exact H1].
  pose proof (IH s1) as H2.
  destruct (update_stages self i rest s1) as [s2 [locs|e]]; simpl in *; congruence.
Qed.

Lemma query_nodes_timing_shape i s :
  length <$> timings (solve_stats (query_nodes self i s)) =
  length <$> timings (solve_stats s).
Proof.
  assert (forall l s0, solve_stats (foldl (query_stage self) s0 l) = solve_stats s0)
    as Hfold.
  { induction l as [|stage l IH]; intros s0; [done|]. simpl. by rewrite IH. }
  unfold query_nodes. cbv zeta. state_simpl. rewrite Hfold. state_simpl.
  by timing_shape.
Qed.

Lemma get_gp_sensitivities_timing_shape i s :
  length <$> timings (solve_stats (get_gp_sensitivities self i s)) =
  length <$> timings (solve_stats s).
Proof.
  unfold get_gp_sensitivities. cbv zeta.
  destruct (gp_sensitivities self) as [gp|]; state_simpl; by timing_shape.
Qed.

Lemma outer_iteration_timing_shape i s :
  length <$> timings (solve_stats (outer_iteration self i s).1) =
  length <$> timings (solve_stats s).
Proof.
  unfold outer_iteration. cbv zeta.
  pose proof (update_stages_timing_shape i (seq 0 (N self))
                (get_gp_sensitivities self i (query_nodes self i s))) as H1.
  rewrite get_gp_sensitivities_timing_shape, query_nodes_timing_shape in H1.
  destruct (update_stages self i (seq 0 (N self))
              (get_gp_sensitivities self i (query_nodes self i s))) as [s1 [locs|e]];
    simpl in H1; [|exact H1].
  state_simpl. timing_shape. exact H1.
Qed.

Lemma outer_loop_timing_shape tol its last0 s :
  length <$> timings (solve_stats (outer_loop self tol its last0 s).1.1) =
  length <$> timings (solve_stats s).
Proof.
  revert last0 s. induction its as [|i rest IH]; intros last0 s; [reflexivity|].
  cbn [outer_loop]. pose proof (outer_iteration_timing_shape i s) as H1.
  destruct (outer_iteration self i s) as [s1 [it|e]]; [|exact H1].
  destruct (negb (Z.eqb (status it) 0)); [exact H1|].
  destruct (s_ltb (py_max (residuals it)) tol); [exact H1|].
  pose proof (IH (Some i) s1) as H2.
  destruct (outer_loop self tol rest (Some i) s1) as [[s2 tr] ex].
  simpl in *. congruence.
Qed.

Lemma solve_timing_shape tol n s :
  length <$> timings (solve_stats (final (solve self tol n s))) =
  (fun _ => n) <$> timings (solve_stats s).
Proof.
  unfold solve. cbv zeta.
  pose proof (outer_loop_timing_shape tol (seq 0 n) None (init_solve_stats self n s))
    as H.
  assert (length <$> timings (solve_stats (init_solve_stats self n s)) =
          (fun _ => n) <$> timings (solve_stats s)) as H0.
  { unfold init_solve_stats. state_simpl. rewrite <- map_fmap_compose.
    apply map_fmap_ext. intros k arr _. simpl. unfold zeros. apply length_replicate. }
  rewrite H0 in H. clear H0.
  destruct (outer_loop self tol (seq 0 n) None (init_solve_stats self n s))
    as [[s' tr] [[j|]|e]]; state_simpl; exact H.
Qed.

(** X9.  Whatever the outcome, [solve] leaves under "timings" the keys it
    found, each with an array of [n_iter_max] entries. *)
Theorem solve_keeps_timing_keys tol n s key :
  length <$> (timings (solve_stats (final (solve self tol n s))) !! key) =
  (fun _ => n) <$> (timings (solve_stats s) !! key).
Proof.
  pose proof (solve_timing_shape tol n s) as H.
  apply (f_equal (fun m : gmap string nat => m !! key)) in H.
  by rewrite !lookup_fmap in H.
Qed.

(** X10.  When [solve] returns: the last iteration's feedback solve had
    status 0, and either its residuals were below the tolerance or it was
    iteration [n_iter_max - 1]; every earlier iteration had status 0 and
    residuals not below the tolerance; "n_iter" is the number of iterations
    run and "timings_total" the measured span. *)
Theorem solve_returns_how tol n s :
  wf_state s -> raised (solve self tol n s) = None ->
  exists it,
    last (trace (solve self tol n s)) = Some it /\
    status it = 0%Z /\
    (converged tol it = true \/ length (trace (solve self tol n s)) = n) /\
    (forall k it', trace (solve self tol n s) !! k = Some it' ->
       k + 1 < length (trace (solve self tol n s)) ->
       status it' = 0%Z /\ converged tol it' = false) /\
    1 <= length (trace (solve self tol n s)) <= n /\
    n_iter (solve_stats (final (solve self tol n s))) =
      length (trace (solve self tol n s)) /\
    timings_total (solve_stats (final (solve self tol n s))) = elapsed_total self.
Proof.
  intros Hwf Hret.
  destruct (solve_run self tol n s Hwf) as (s' & tr & ex & Hrun & Hloop).
  destruct (solve_unfold self tol n s s' tr ex Hrun)
    as (Htr & _ & _ & _ & _ & _ & _ & _ & Hex).
  rewrite Htr in *.
  destruct Hloop as [_ _ _ _ Hlen _ _ _ _ _ Hearly Hhow].
  rewrite length_seq in Hlen.
  destruct ex as [[i|]|e]; [|destruct Hex; congruence|destruct Hex; congruence].
  destruct Hex as (_ & Hiter & Htot).
  destruct Hhow as [[_ ?]|(it & i' & Hlast & Hi & Hst & Hii & Hconv)]; [done|].
  injection Hii as <-.
  apply lookup_seq in Hi as [Hi Hlt]. simpl in Hi.
  assert (1 <= length tr) as Hpos.
  { destruct tr; [done|simpl; lia]. }
  exists it. split; [done|]. split; [done|]. split.
  { destruct Hconv as [Hc|[_ Hfull]]; [by left|right]. by rewrite length_seq in Hfull. }
  split; [done|]. split; [lia|]. split; [lia|done].
Qed.

(** X11.  After a [solve] that returned, [get_solve_stats] reports the
    number of iterations run, at most [n_iter_max], and under every key an
    array of exactly that many entries; the keys are those the object had. *)
Theorem get_solve_stats_after_solve tol n s :
  wf_state s -> raised (solve self tol n s) = None ->
  let d := (get_solve_stats self (final (solve self tol n s))).2 in
  data_n_iter d = length (trace (solve self tol n s)) /\
  1 <= data_n_iter d <= n /\
  data_timings_total d = elapsed_total self /\
  forall key,
    length <$> (data_timings d !! key) =
    (fun _ => data_n_iter d) <$> (timings (solve_stats s) !! key).
Proof.
  intros Hwf Hret d.
  destruct (solve_run self tol n s Hwf) as (s' & tr & ex & Hrun & Hloop).
  destruct (solve_unfold self tol n s s' tr ex Hrun)
    as (Htr & _ & _ & _ & _ & _ & _ & _ & Hex).
  destruct Hloop as [_ _ _ _ Hlen _ _ _ _ _ _ Hhow].
  rewrite length_seq in Hlen.
  destruct ex as [[i|]|e]; [|destruct Hex; congruence|destruct Hex; congruence].
  destruct Hex as (_ & Hiter & Htot).
  destruct Hhow as [[_ ?]|(it & i' & Hlast & Hi & Hst & Hii & Hconv)]; [done|].
  injection Hii as <-.
  apply lookup_seq in Hi as [Hi Hlt]. simpl in Hi.
  assert (1 <= length tr) as Hpos.
  { destruct tr; [done|simpl; lia]. }
  pose proof (solve_timing_shape tol n s) as Hshape.
  subst d. unfold get_solve_stats.
  destruct (get_solution self (final (solve self tol n s))) as [[X U] P].
  state_simpl. cbn [data_n_iter data_timings_total data_timings snd].
  rewrite Htr, Hiter.
  split; [lia|]. split; [lia|]. split; [done|].
  intros key.
  apply (f_equal (fun m : gmap string nat => m !! key)) in Hshape.
  rewrite !lookup_fmap in Hshape. rewrite lookup_fmap.
  destruct (timings (solve_stats (final (solve self tol n s))) !! key) as [arr|];
    destruct (timings (solve_stats s) !! key) as [arr0|]; simpl in *; try done.
  injection Hshape as Harr. f_equal. rewrite length_take. lia.
Qed.

End StatsFacts.

(** ** Invariants of the covariance lists *)

Section CovarianceFacts.
Context {R : Scalar} {HR : Exact R}.
Variable self : ZoroAcados R.

Add Ring scalar_ring_cov : (@scalar_ring R HR).

Implicit Types (s : ZoroState self).

(** What a pass of the stage loop does to the two covariance lists, whether
    it completes or not. *)
Lemma update_stage_covariances i stage s :
  (P_bar_all (update_stage self i stage s).1 = P_bar_all s /\
   P_bar_all_vec (update_stage self i stage s).1 = P_bar_all_vec s) \/
  (exists P st G,
     read (P_bar_all s) stage = Some P /\
     let Pn := P_propagation P (mat_add (sim_get_Sx (sim_api self) st) G) (B self)
                 (mat_add (Sigma_W self) (diag (row (var s) stage))) in
     P_bar_all (update_stage self i stage s).1 =
       <[stage + 1 := Some Pn]> (P_bar_all s) /\
     P_bar_all_vec (update_stage self i stage s).1 =
       <[stage + 1 := Some (sym_mat2vec Pn)]> (P_bar_all_vec s)).
Proof.
  unfold update_stage, delta_P_bar_vec. cbv zeta. state_simpl.
  destruct (P_bar_old_vec s) as [old|].
  - destruct (read (P_bar_all_vec s) stage) as [P_vec|]; cbn [mbind option_bind];
      [|left; by state_simpl].
    destruct (read (P_bar_all s) stage) as [P|]; [|left; by state_simpl].
    right. eexists P, _, _. split; [reflexivity|].
    match goal with |- context [read (<[?k := ?x]> ?l) stage] =>
      destruct (read (<[k := x]> l) stage) end; state_simpl; split; reflexivity.
  - destruct (read (P_bar_all s) stage) as [P|]; [|left; by state_simpl].
    right. eexists P, _, _. split; [reflexivity|].
    match goal with |- context [read (<[?k := ?x]> ?l) stage] =>
      destruct (read (<[k := x]> l) stage) end; state_simpl; split; reflexivity.
Qed.

(** A property of the two covariance lists that every pass of the stage
    loop keeps is kept by [solve]. *)
Lemma solve_covariances_invariant
    (Inv : list (option (mat R)) -> list (option (vec R)) -> Prop) :
  (forall i stage s,
     Inv (P_bar_all s) (P_bar_all_vec s) ->
     Inv (P_bar_all (update_stage self i stage s).1)
         (P_bar_all_vec (update_stage self i stage s).1)) ->
  forall tol n s,
    Inv (P_bar_all s) (P_bar_all_vec s) ->
    Inv (P_bar_all (final (solve self tol n s)))
        (P_bar_all_vec (final (solve self tol n s))).
Proof.
  intros Hstep.
  assert (forall i stages s,
            Inv (P_bar_all s) (P_bar_all_vec s) ->
            Inv (P_bar_all (update_stages self i stages s).1)
                (P_bar_all_vec (update_stages self i stages s).1)) as Hstages.
  { intros i stages. induction stages as [|stage rest IH]; intros s Hs; [done|].
    cbn [update_stages]. pose proof (Hstep i stage s Hs) as H1.
    destruct (update_stage self i stage s) as [s1 [loc|e]]; [|exact H1].
    pose proof (IH s1 H1) as H2.
    destruct (update_stages self i rest s1) as [s2 [locs|e]]; exact H2. }
  assert (forall i s,
            Inv (P_bar_all s) (P_bar_all_vec s) ->
            Inv (P_bar_all (outer_iteration self i s).1)
                (P_bar_all_vec (outer_iteration self i s).1)) as Hiter.
  { intros i s Hs. unfold outer_iteration. cbv zeta.
    destruct (iteration_start_keeps self i s) as (K1 & K2 & _).
    pose proof (Hstages i (seq 0 (N self))
                  (get_gp_sensitivities self i (query_nodes self i s))) as H1.
    rewrite K1, K2 in H1. specialize (H1 Hs).
    destruct (update_stages self i (seq 0 (N self))
                (get_gp_sensitivities self i (query_nodes self i s)))
      as [s1 [locs|e]]; exact H1. }
  assert (forall tol its last0 s,
            Inv (P_bar_all s) (P_bar_all_vec s) ->
            Inv (P_bar_all (outer_loop self tol its last0 s).1.1)
                (P_bar_all_vec (outer_loop self tol its last0 s).1.1)) as Hloop.
  { intros tol its. induction its as [|i rest IH]; intros last0 s Hs; [done|].
    cbn [outer_loop]. pose proof (Hiter i s Hs) as H1.
    destruct (outer_iteration self i s) as [s1 [it|e]]; [|exact H1].
    destruct (negb (Z.eqb (status it) 0)); [exact H1|].
    destruct (s_ltb (py_max (residuals it)) tol); [exact H1|].
    pose proof (IH (Some i) s1 H1) as H2.
    destruct (outer_loop self tol rest (Some i) s1) as [[s2 tr] ex]. exact H2. }
  intros tol n s Hs. unfold solve. cbv zeta.
  pose proof (Hloop tol (seq 0 n) None (init_solve_stats self n s) Hs) as H.
  destruct (outer_loop self tol (seq 0 n) None (init_solve_stats self n s))
    as [[s' tr] [[j|]|e]]; exact H.
Qed.

(** X12.  The vectorised covariances are the encodings of the covariance
    matrices, entry by entry: so in a new object, and [solve] keeps it. *)
Theorem covariance_lists_agree :
  (forall ocp0 sim0, covariances_agree (init self ocp0 sim0)) /\
  (forall tol n s,
     covariances_agree s -> covariances_agree (final (solve self tol n s))).
Proof.
  split.
  - intros ocp0 sim0. unfold covariances_agree, init. state_simpl.
    rewrite list_fmap_insert. f_equal. by rewrite fmap_replicate.
  - intros tol n s Hs. unfold covariances_agree in *.
    apply (solve_covariances_invariant (fun Ps Vs => Vs = fmap (M:=option) (sym_mat2vec (R:=R)) <$> Ps));
      [|done].
    clear. intros i stage s Hs.
    destruct (update_stage_covariances i stage s) as [[-> ->]|(P & st & G & _ & HP & HV)];
      [done|].
    cbv zeta in HP, HV. rewrite HP, HV, Hs. by rewrite list_fmap_insert.
Qed.

(** X13.  When [Sigma_x0] and the integrator's sensitivity [Sx] are
    nx x nx, every covariance that a new object holds and that [solve]
    computes is an nx x nx array, and every vector in [P_bar_all_vec] has
    nx (nx + 1) / 2 entries and decodes to a symmetric nx x nx matrix: the
    upper triangle of its covariance, mirrored. *)
Theorem covariance_vectors_decode :
  has_shape (nx self) (nx self) (Sigma_x0 self) ->
  (forall st, rows (sim_get_Sx (sim_api self) st) = nx self) ->
  (forall ocp0 sim0,
     covariances_agree (init self ocp0 sim0) /\
     covariances_shaped (init self ocp0 sim0)) /\
  (forall tol n s,
     covariances_agree s -> covariances_shaped s ->
     covariances_shaped (final (solve self tol n s)) /\
     forall k v,
       P_bar_all_vec (final (solve self tol n s)) !! k = Some (Some v) ->
       length v = nx self * (nx self + 1) / 2 /\
       symmetric (vec2sym_mat v (nx self)) /\
       exists P,
         P_bar_all (final (solve self tol n s)) !! k = Some (Some P) /\
         forall a b, a < nx self -> b < nx self ->
           mget (vec2sym_mat v (nx self)) a b = mget P (a `min` b) (a `max` b)).
Proof.
  intros HS0 HSx. split.
  - intros ocp0 sim0. split.
    + unfold covariances_agree, init. state_simpl.
      rewrite list_fmap_insert. f_equal. by rewrite fmap_replicate.
    + intros k P. unfold init. state_simpl. intros Hk. destruct k as [|k].
      * rewrite list_lookup_insert_eq in Hk by (rewrite length_replicate; lia).
        injection Hk as <-. done.
      * rewrite list_lookup_insert_ne in Hk by done.
        apply lookup_replicate in Hk as [Hk _]. done.
  - intros tol n s Hagree Hshaped.
    assert (P_bar_all_vec (final (solve self tol n s)) =
              fmap (M:=option) (sym_mat2vec (R:=R)) <$>
              P_bar_all (final (solve self tol n s)) /\
            forall k P, P_bar_all (final (solve self tol n s)) !! k = Some (Some P) ->
                        has_shape (nx self) (nx self) P) as [HV HP].
    { apply (solve_covariances_invariant
               (fun Ps Vs =>
                  Vs = fmap (M:=option) (sym_mat2vec (R:=R)) <$> Ps /\
                  forall k P, Ps !! k = Some (Some P) ->
                              has_shape (nx self) (nx self) P)); [|by split].
      clear s Hagree Hshaped. intros i stage s [Hs1 Hs2].
      destruct (update_stage_covariances i stage s)
        as [[-> ->]|(P & st & G & _ & HPs & HVs)]; [by split|].
      cbv zeta in HPs, HVs. rewrite HPs, HVs, Hs1. split.
      - by rewrite list_fmap_insert.
      - intros k P' Hk. destruct (decide (k = stage + 1)) as [->|Hne].
        + destruct (decide (stage + 1 < length (P_bar_all s))) as [Hlt|Hge].
          * rewrite list_lookup_insert_eq in Hk by done. injection Hk as <-.
            pose proof (P_propagation_shape P
                          (mat_add (sim_get_Sx (sim_api self) st) G) (B self)
                          (mat_add (Sigma_W self) (diag (row (var s) stage)))) as Hsh.
            simpl in Hsh. by rewrite (HSx st) in Hsh.
          * apply lookup_lt_Some in Hk. rewrite length_insert in Hk. lia.
        + rewrite list_lookup_insert_ne in Hk by done. by apply (Hs2 k). }
    split; [exact HP|].
    intros k v Hv. rewrite HV, list_lookup_fmap in Hv.
    destruct (P_bar_all (final (solve self tol n s)) !! k) as [[P|]|] eqn:HPk;
      simpl in Hv; try discriminate Hv.
    injection Hv as <-.
    destruct (HP k P HPk) as (Hwf & Hr & Hc).
    assert (length (sym_mat2vec P) = nx self * (nx self + 1) / 2) as Hlen.
    { by rewrite length_sym_mat2vec, Hr. }
    split; [done|]. split; [by apply vec2sym_mat_sym|].
    exists P. split; [done|]. intros a b Ha Hb. unfold sym_mat2vec. rewrite Hr.
    by rewrite (mget_vec2sym_mat (fun ij => mget P ij.1 ij.2)) by done.
Qed.

End CovarianceFacts.

(** ** Reading the iterate *)

Section QueryFacts.
Context {R : Scalar} {HR : Exact R}.
Variable self : ZoroAcados R.

Implicit Types (s : ZoroState self).

(** The first [n] passes of the loop of [query_nodes]. *)
Lemma query_stages_spec n s :
  let s' := foldl (query_stage self) s (seq 0 n) in
  ocp_solver s' = ocp_solver s /\
  length (x_hat_all s') = length (x_hat_all s) /\
  length (u_hat_all s') = length (u_hat_all s) /\
  length (y_hat_all s') = length (y_hat_all s) /\
  (forall k, n <= k -> x_hat_all s' !! k = x_hat_all s !! k) /\
  (forall k, n <= k -> u_hat_all s' !! k = u_hat_all s !! k) /\
  (forall k, n <= k -> y_hat_all s' !! k = y_hat_all s !! k) /\
  (forall k, k < n -> k < length (x_hat_all s) ->
     x_hat_all s' !! k = Some (ocp_get_x (ocp_api self) k (ocp_solver s))) /\
  (forall k, k < n -> k < length (u_hat_all s) ->
     u_hat_all s' !! k = Some (ocp_get_u (ocp_api self) k (ocp_solver s))) /\
  (forall k, k < n -> k < length (x_hat_all s) -> k < length (u_hat_all s) ->
     k < length (y_hat_all s) ->
     y_hat_all s' !! k =
     Some (ocp_get_x (ocp_api self) k (ocp_solver s) ++
           ocp_get_u (ocp_api self) k (ocp_solver s))).
Proof.
  induction n as [|n IH]; [cbn; repeat split; intros; lia|].
  rewrite seq_S, foldl_app. cbn [foldl Nat.add].
  cbv zeta in IH. set (s1 := foldl (query_stage self) s (seq 0 n)) in *.
  destruct IH as (Ho & Hlx & Hlu & Hly & Hkx & Hku & Hky & Hx & Hu & Hy).
  unfold query_stage. cbv zeta. state_simpl. rewrite !length_insert, Ho.
  split; [done|]. split; [done|]. split; [done|]. split; [done|].
  split; [intros k Hk; rewrite list_lookup_insert_ne by lia; apply Hkx; lia|].
  split; [intros k Hk; rewrite list_lookup_insert_ne by lia; apply Hku; lia|].
  split; [intros k Hk; rewrite list_lookup_insert_ne by lia; apply Hky; lia|].
  split; [|split].
  - intros k Hk Hlen. destruct (decide (k = n)) as [->|Hne].
    + apply list_lookup_insert_eq. lia.
    + rewrite list_lookup_insert_ne by done. apply Hx; lia.
  - intros k Hk Hlen. destruct (decide (k = n)) as [->|Hne].
    + apply list_lookup_insert_eq. lia.
    + rewrite list_lookup_insert_ne by done. apply Hu; lia.
  - intros k Hk Hlenx Hlenu Hleny. destruct (decide (k = n)) as [->|Hne].
    + rewrite list_lookup_insert_eq by lia. unfold row.
      rewrite !list_lookup_insert_eq by lia. done.
    + rewrite list_lookup_insert_ne by done. apply Hy; lia.
Qed.

(** X14.  [query_nodes] copies the solver's iterate at the nodes
    0 .. N - 1 into [x_hat_all], [u_hat_all] and [y_hat_all] (state, then
    control); the terminal row [x_hat_all[N]] is not refreshed, and the
    solver is only switched to phase 1. *)
Theorem query_nodes_spec i s :
  length (x_hat_all s) = N self + 1 -> length (u_hat_all s) = N self ->
  length (y_hat_all s) = N self ->
  let ocp := ocp_options_set_rti_phase (ocp_api self) 1 (ocp_solver s) in
  let s' := query_nodes self i s in
  ocp_solver s' = ocp /\
  (forall k, k < N self ->
     x_hat_all s' !! k = Some (ocp_get_x (ocp_api self) k ocp) /\
     u_hat_all s' !! k = Some (ocp_get_u (ocp_api self) k ocp) /\
     y_hat_all s' !! k =
       Some (ocp_get_x (ocp_api self) k ocp ++ ocp_get_u (ocp_api self) k ocp)) /\
  x_hat_all s' !! N self = x_hat_all s !! N self /\
  length (x_hat_all s') = N self + 1 /\ length (u_hat_all s') = N self /\
  length (y_hat_all s') = N self.
Proof.
  intros Hlx Hlu Hly ocp s'. subst s'. unfold query_nodes. cbv zeta. state_simpl.
  destruct (query_stages_spec (N self)
              (set_ocp_solver self (ocp_options_set_rti_phase (ocp_api self) 1) s))
    as (Ho & Hlx' & Hlu' & Hly' & Hkx & _ & _ & Hx & Hu & Hy).
  cbv zeta in *. revert Ho Hlx' Hlu' Hly' Hkx Hx Hu Hy. state_simpl.
  intros Ho Hlx' Hlu' Hly' Hkx Hx Hu Hy.
  split; [exact Ho|]. split.
  - intros k Hk. split; [apply Hx; lia|]. split; [apply Hu; lia|apply Hy; lia].
  - split; [apply Hkx; lia|]. split; [congruence|]. split; congruence.
Qed.

(** The loop of [get_solution]. *)
Lemma get_solution_loop (fx fu : nat -> vec R) n (X U : list (vec R)) :
  n <= length X -> n <= length U ->
  let XU := foldl (fun XU i => (<[i := fx i]> XU.1, <[i := fu i]> XU.2)) (X, U) (seq 0 n) in
  length XU.1 = length X /\ length XU.2 = length U /\
  (forall k, XU.1 !! k = if decide (k < n) then Some (fx k) else X !! k) /\
  (forall k, XU.2 !! k = if decide (k < n) then Some (fu k) else U !! k).
Proof.
  intros HX HU. induction n as [|n IH]; [done|].
  rewrite seq_S, foldl_app. cbn [foldl Nat.add fst snd].
  destruct IH as (Hl1 & Hl2 & H1 & H2); [lia|lia|].
  cbv zeta. rewrite !length_insert.
  split; [done|]. split; [done|]. split.
  - intros k. destruct (decide (k = n)) as [->|Hne].
    + rewrite list_lookup_insert_eq by lia. by rewrite decide_True by lia.
    + rewrite list_lookup_insert_ne by done. rewrite H1.
      destruct (decide (k < n)); [by rewrite decide_True by lia|].
      by rewrite decide_False by lia.
  - intros k. destruct (decide (k = n)) as [->|Hne].
    + rewrite list_lookup_insert_eq by lia. by rewrite decide_True by lia.
    + rewrite list_lookup_insert_ne by done. rewrite H2.
      destruct (decide (k < n)); [by rewrite decide_True by lia|].
      by rewrite decide_False by lia.
Qed.

(** X15.  [get_solution] returns the solver's states at the nodes 0 .. N,
    terminal node included, its controls at 0 .. N - 1, and the covariance
    list of the object itself. *)
Theorem get_solution_spec s :
  get_solution self s =
  ((fun k => ocp_get_x (ocp_api self) k (ocp_solver s)) <$> seq 0 (N self + 1),
   (fun k => ocp_get_u (ocp_api self) k (ocp_solver s)) <$> seq 0 (N self),
   P_bar_all s).
Proof.
  unfold get_solution. cbv zeta.
  destruct (get_solution_loop
              (fun k => ocp_get_x (ocp_api self) k (ocp_solver s))
              (fun k => ocp_get_u (ocp_api self) k (ocp_solver s))
              (N self)
              (replicate (N self + 1) (zeros (nx self)))
              (replicate (N self) (zeros (nu self))))
    as (Hl1 & Hl2 & H1 & H2);
    [rewrite length_replicate; lia|rewrite length_replicate; lia|].
  cbv zeta in *. rewrite length_replicate in Hl1, Hl2.
  do 2 f_equal.
  - apply list_eq. intros k. rewrite list_lookup_fmap.
    destruct (decide (k = N self)) as [->|Hne].
    + rewrite list_lookup_insert_eq by lia.
      rewrite lookup_seq_lt by lia. done.
    + rewrite list_lookup_insert_ne by done. rewrite H1.
      destruct (decide (k < N self)).
      * rewrite lookup_seq_lt by lia. done.
      * rewrite lookup_seq_ge by lia. apply lookup_ge_None_2.
        rewrite length_replicate. lia.
  - apply list_eq. intros k. rewrite list_lookup_fmap, H2.
    destruct (decide (k < N self)).
    + rewrite lookup_seq_lt by lia. done.
    + rewrite lookup_seq_ge by lia. apply lookup_ge_None_2.
      rewrite length_replicate. lia.
Qed.

End QueryFacts.

(** ** The default [B], the first iteration, reading the statistics twice *)

Section IdentityFacts.
Context {R : Scalar} {HR : Exact R}.

Add Ring scalar_ring_id : (@scalar_ring R HR).





End IdentityFacts.

Section FirstIterationFacts.
Context {R : Scalar} {HR : Exact R}.
Variable self : ZoroAcados R.


Lemma get_solution_set_solve_stats f (s : ZoroState self) :
  get_solution self (set_solve_stats self f s) = get_solution self s.
Proof. reflexivity. Qed.

(** X20.  [get_solve_stats] cuts the arrays in place; a second call
    returns the same data as the first. *)
Theorem get_solve_stats_idempotent (s : ZoroState self) :
  (get_solve_stats self (get_solve_stats self s).1).2 = (get_solve_stats self s).2.
Proof.
  unfold get_solve_stats.
  destruct (get_solution self s) as [[X U] P] eqn:Hsol. cbn [fst].
  rewrite get_solution_set_solve_stats, Hsol. state_simpl.
  cbn [snd]. f_equal.
  rewrite <- map_fmap_compose. apply map_fmap_ext. intros key arr _. simpl.
  by rewrite take_take, Nat.min_id.
Qed.

End FirstIterationFacts.

(** ** The timing arrays *)

Section TimingFacts.
Context {R : Scalar} {HR : Exact R}.
Variable self : ZoroAcados R.

Add Ring scalar_ring_time : (@scalar_ring R HR).

Implicit Types (s : ZoroState self) (m : gmap string (list R)).

(** Entry [j] under [key'] after [timings[key][i] += d] and after
    [timings[key][i] = d]. *)
Lemma lookup_timing_add m (f : R -> R) key i key' j :
  (arr ← alter (alter f i) key m !! key'; arr !! j) =
  if decide (key = key' /\ i = j) then f <$> (arr ← m !! key'; arr !! j)
  else arr ← m !! key'; arr !! j.
Proof.
  rewrite lookup_alter.
  destruct (decide (key = key')) as [->|Hk].
  - destruct (m !! key') as [arr|]; simpl.
    + destruct (decide (i = j)) as [->|Hi].
      * rewrite decide_True by done. by rewrite list_lookup_alter_eq.
      * rewrite decide_False by tauto. by rewrite list_lookup_alter_ne.
    + by case_decide.
  - by rewrite decide_False by tauto.
Qed.

Lemma lookup_timing_set m (d : R) key i key' j :
  (arr ← alter (fun arr => <[i := d]> arr) key m !! key'; arr !! j) =
  if decide (key = key' /\ i = j) then (fun _ => d) <$> (arr ← m !! key'; arr !! j)
  else arr ← m !! key'; arr !! j.
Proof.
  rewrite lookup_alter.
  destruct (decide (key = key')) as [->|Hk].
  - destruct (m !! key') as [arr|]; simpl.
    + destruct (decide (i = j)) as [->|Hi].
      * rewrite decide_True by done.
        destruct (arr !! j) as [x|] eqn:Hx.
        -- rewrite list_lookup_insert_eq by (by eapply lookup_lt_Some). done.
        -- simpl. apply lookup_ge_None_2. rewrite length_insert.
           by apply lookup_ge_None_1.
      * rewrite decide_False by tauto. by rewrite list_lookup_insert_ne.
    + by case_decide.
  - by rewrite decide_False by tauto.
Qed.

Lemma lookup_timing_add_other m (f : R -> R) key i key' j :
  i <> j ->
  (arr ← alter (alter f i) key m !! key'; arr !! j) = (arr ← m !! key'; arr !! j).
Proof. intros Hij. rewrite lookup_timing_add. by rewrite decide_False by tauto. Qed.

Lemma lookup_timing_set_other m (d : R) key i key' j :
  i <> j ->
  (arr ← alter (fun arr => <[i := d]> arr) key m !! key'; arr !! j) =
  (arr ← m !! key'; arr !! j).
Proof. intros Hij. rewrite lookup_timing_set. by rewrite decide_False by tauto. Qed.

Ltac timing_other :=
  repeat ((rewrite lookup_timing_add_other by done) ||
          (rewrite lookup_timing_set_other by done)).

(** A stage pass of outer iteration [i] writes entry [i] only. *)
Lemma update_stage_timing_other i stage s key j :
  i <> j -> timing_at (update_stage self i stage s).1 key j = timing_at s key j.
Proof.
  intros Hij. unfold timing_at, update_stage, delta_P_bar_vec. cbv zeta. state_simpl.
  destruct (P_bar_old_vec s) as [old|].
  - destruct (read (P_bar_all_vec s) stage) as [P_vec|];
      [simpl (Some _ ≫= _)|simpl (None ≫= _); state_simpl; timing_other; reflexivity].
    destruct (read (P_bar_all s) stage) as [P|]; [|state_simpl; timing_other; reflexivity].
    match goal with |- context [read (<[?k := ?x]> ?l) stage] =>
      destruct (read (<[k := x]> l) stage) end; state_simpl; timing_other; reflexivity.
  - destruct (read (P_bar_all s) stage) as [P|]; [|state_simpl; timing_other; reflexivity].
    match goal with |- context [read (<[?k := ?x]> ?l) stage] =>
      destruct (read (<[k := x]> l) stage) end; state_simpl; timing_other; reflexivity.
Qed.

Lemma update_stages_timing_other i stages s key j :
  i <> j -> timing_at (update_stages self i stages s).1 key j = timing_at s key j.
Proof.
  intros Hij. revert s. induction stages as [|stage rest IH]; intros s; [reflexivity|].
  cbn [update_stages]. pose proof (update_stage_timing_other i stage s key j Hij) as H1.
  destruct (update_stage self i stage s) as [s1 [loc|e]]; [|exact H1].
  pose proof (IH s1) as H2.
  destruct (update_stages self i rest s1) as [s2 [locs|e]]; simpl in *; congruence.
Qed.

Lemma query_nodes_timing_other i s key j :
  i <> j -> timing_at (query_nodes self i s) key j = timing_at s key j.
Proof.
  intros Hij.
  assert (forall l s0, solve_stats (foldl (query_stage self) s0 l) = solve_stats s0)
    as Hfold.
  { induction l as [|stage l IH]; intros s0; [done|]. simpl. by rewrite IH. }
  unfold timing_at, query_nodes. cbv zeta. state_simpl. rewrite Hfold. state_simpl.
  timing_other. reflexivity.
Qed.

Lemma get_gp_sensitivities_timing_other i s key j :
  i <> j -> timing_at (get_gp_sensitivities self i s) key j = timing_at s key j.
Proof.
  intros Hij. unfold timing_at, get_gp_sensitivities. cbv zeta.
  destruct (gp_sensitivities self) as [gp|]; state_simpl; timing_other; reflexivity.
Qed.

(** Outer iteration [i] writes entry [i] of the timing arrays only. *)
Lemma outer_iteration_timing_other i s key j :
  i <> j -> timing_at (outer_iteration self i s).1 key j = timing_at s key j.
Proof.
  intros Hij. unfold outer_iteration. cbv zeta.
  pose proof (update_stages_timing_other i (seq 0 (N self))
                (get_gp_sensitivities self i (query_nodes self i s)) key j Hij) as H1.
  rewrite get_gp_sensitivities_timing_other, query_nodes_timing_other in H1 by done.
  destruct (update_stages self i (seq 0 (N self))
              (get_gp_sensitivities self i (query_nodes self i s))) as [s1 [locs|e]];
    simpl in H1; [|exact H1].
  unfold timing_at in *. state_simpl. timing_other. exact H1.
Qed.

(** The loop over [a, a + m) writes the entries of the iterations it ran. *)
Lemma outer_loop_timing_other tol (cnt : nat) a last0 s key j :
  wf_state s ->
  j < a \/ a + length (outer_loop self tol (seq a cnt) last0 s).1.2 <= j ->
  timing_at (outer_loop self tol (seq a cnt) last0 s).1.1 key j = timing_at s key j.
Proof.
  revert a last0 s. induction cnt as [|cnt IH]; intros a last0 s Hwf Hj; [reflexivity|].
  revert Hj. cbn [seq outer_loop].
  destruct (outer_iteration_spec self a s Hwf) as (s1 & it & Hit & Hpost).
  pose proof (outer_iteration_timing_other a s key j) as H1.
  rewrite Hit in *. simpl in H1.
  destruct (negb (Z.eqb (status it) 0)); [simpl; intros Hj; apply H1; lia|].
  destruct (s_ltb (py_max (residuals it)) tol); [simpl; intros Hj; apply H1; lia|].
  pose proof (IH (S a) (Some a) s1 (iter_wf _ _ _ _ Hpost)) as H2.
  destruct (outer_loop self tol (seq (S a) cnt) (Some a) s1) as [[s2 tr] ex].
  simpl in *. intros Hj. rewrite H2 by lia. apply H1. lia.
Qed.

(** X21.  [solve] leaves zero in every timing entry at or beyond the number
    of iterations it ran: what [get_solve_stats] cuts off are zeros. *)
Theorem solve_unused_timings_zero tol n s key j :
  wf_state s -> is_Some (timings (solve_stats s) !! key) ->
  length (trace (solve self tol n s)) <= j -> j < n ->
  timing_at (final (solve self tol n s)) key j = Some 0%S.
Proof.
  intros Hwf [arr Harr] Hj Hn.
  pose proof (outer_loop_timing_other tol n 0 None (init_solve_stats self n s) key j
                (init_solve_stats_wf self n s Hwf)) as H.
  rewrite trace_solve in Hj.
  assert (timing_at (init_solve_stats self n s) key j = Some 0%S) as H0.
  { unfold timing_at, init_solve_stats. state_simpl. rewrite lookup_fmap, Harr. simpl.
    unfold zeros. by apply lookup_replicate_2. }
  rewrite H0 in H. specialize (H ltac:(lia)). revert H.
  unfold solve. cbv zeta.
  destruct (outer_loop self tol (seq 0 n) None (init_solve_stats self n s))
    as [[s' tr] [[l|]|e]]; state_simpl; intros H; exact H.
Qed.









End TimingFacts.

(** ** More runs of the small instances *)

Lemma sym_mat2vec_vec2sym_mat_witness :
  length demo_v = 2 * (2 + 1) / 2 /\ sym_mat2vec (vec2sym_mat demo_v 2) = demo_v.
Proof.
  split; [reflexivity|]. apply (sym_mat2vec_vec2sym_mat demo_v 2). reflexivity.
Defined.

Lemma vec2sym_mat_symmetric_witness :
  length demo_v = 2 * (2 + 1) / 2 /\ symmetric (vec2sym_mat demo_v 2).
Proof.
  split; [reflexivity|]. apply (vec2sym_mat_symmetric demo_v 2). reflexivity.
Defined.

Lemma vec2sym_mat_sym_mat2vec_upper_witness :
  wf_mat demo_L /\ cols demo_L = rows demo_L /\
  mget (vec2sym_mat (sym_mat2vec demo_L) 2) 1 0 = mget demo_L 0 1.
Proof.
  assert (wf_mat demo_L) as Hwf.
  { split; [reflexivity|]. repeat constructor. }
  split; [exact Hwf|]. split; [reflexivity|].
  apply (proj1 (vec2sym_mat_sym_mat2vec_upper demo_L Hwf eq_refl) 1 0); simpl; lia.
Defined.

Lemma propagate_shapes_witness :
  has_shape 2 2 demo_P /\
  exists out, demo_propagate = inl out /\ Forall (has_shape 2 2) out.
Proof.
  assert (has_shape 2 2 demo_P) as HP.
  { split; [|done]. split; [reflexivity|]. repeat constructor. }
  split; [exact HP|].
  eexists. split; [vm_compute; reflexivity|].
  apply (propagate_shapes demo_P (fun _ => demo_A) demo_B (fun _ => demo_W)
           demo_y_all 2 _ 2 HP).
  - intros y. reflexivity.
  - vm_compute. reflexivity.
Defined.

Lemma P_propagation_with_y_row_witness :
  exists out,
    P_propagation_with_y demo_covar_fun demo_get_mean_dy (Some demo_B)
      [[0%Z]] [[2; 1; 3]%Z] [demo_A] = inl out /\
    out !! 0 = Some ([23; 17; 23]%Z : vec ZScalar).
Proof.
  destruct (P_propagation_with_y_row demo_covar_fun demo_get_mean_dy demo_B
              [[0%Z]] [[2; 1; 3]%Z] [demo_A] 0 [2; 1; 3]%Z demo_A)
    as (out & Hout & _ & Hrow & _).
  - simpl. lia.
  - simpl. lia.
  - simpl. lia.
  - reflexivity.
  - reflexivity.
  - reflexivity.
  - exists out. split; [exact Hout|]. rewrite Hrow. vm_compute. reflexivity.
Defined.

Lemma linear_model_reads_stage_params_witness :
  update_stage demo_ok 0 0 demo_ok_stage0 =
    ((update_stage demo_ok 0 0 demo_ok_stage0).1, inl demo_ok_stage0_locals) /\
  f_expl_expr (export_linear_model (nx demo_ok) (nu demo_ok) 1)
    ([5%Z] : vec ZScalar) ([7%Z] : vec ZScalar) (p demo_ok_stage0_locals) =
  vec_add (vec_add (matvec (A_total demo_ok_stage0_locals) ([5%Z] : vec ZScalar))
                   (matvec (B_total demo_ok_stage0_locals) ([7%Z] : vec ZScalar)))
          (f_hat demo_ok_stage0_locals).
Proof.
  assert (update_stage demo_ok 0 0 demo_ok_stage0 =
          ((update_stage demo_ok 0 0 demo_ok_stage0).1, inl demo_ok_stage0_locals))
    as Hstep by (vm_compute; reflexivity).
  split; [exact Hstep|].
  apply (linear_model_reads_stage_params demo_ok 0 0 demo_ok_stage0 _
           demo_ok_stage0_locals 1 [5%Z] [7%Z] Hstep); reflexivity.
Defined.

Lemma stage_param_layout_witness :
  update_stage demo_ok 0 0 demo_ok_stage0 =
    ((update_stage demo_ok 0 0 demo_ok_stage0).1, inl demo_ok_stage0_locals) /\
  exists ocp',
    transform_ocp demo_nominal_ocp = inl ocp' /\
    length (p demo_ok_stage0_locals) = length (parameter_values ocp').
Proof.
  assert (update_stage demo_ok 0 0 demo_ok_stage0 =
          ((update_stage demo_ok 0 0 demo_ok_stage0).1, inl demo_ok_stage0_locals))
    as Hstep by (vm_compute; reflexivity).
  split; [exact Hstep|].
  eexists. split; [reflexivity|].
  apply (stage_param_layout demo_ok 0 0 demo_ok_stage0 _ demo_ok_stage0_locals
           demo_nominal_ocp _ Hstep); reflexivity.
Defined.

Lemma solve_returns_how_witness :
  wf_state demo_ok_new /\
  raised (solve demo_ok (0%Z : ZScalar) 3 demo_ok_new) = None /\
  n_iter (solve_stats (final (solve demo_ok (0%Z : ZScalar) 3 demo_ok_new))) =
  length (trace (solve demo_ok (0%Z : ZScalar) 3 demo_ok_new)).
Proof.
  assert (wf_state demo_ok_new) as Hwf by (repeat split; reflexivity).
  assert (raised (solve demo_ok (0%Z : ZScalar) 3 demo_ok_new) = None) as Hret
    by (vm_compute; reflexivity).
  split; [exact Hwf|]. split; [exact Hret|].
  destruct (solve_returns_how demo_ok (0%Z : ZScalar) 3 demo_ok_new Hwf Hret)
    as (it & _ & _ & _ & _ & _ & Hn & _).
  exact Hn.
Defined.

Lemma get_solve_stats_after_solve_witness :
  wf_state demo_ok_new /\
  raised (solve demo_ok (0%Z : ZScalar) 3 demo_ok_new) = None /\
  data_n_iter
    (get_solve_stats demo_ok (final (solve demo_ok (0%Z : ZScalar) 3 demo_ok_new))).2 =
  length (trace (solve demo_ok (0%Z : ZScalar) 3 demo_ok_new)).
Proof.
  assert (wf_state demo_ok_new) as Hwf by (repeat split; reflexivity).
  assert (raised (solve demo_ok (0%Z : ZScalar) 3 demo_ok_new) = None) as Hret
    by (vm_compute; reflexivity).
  split; [exact Hwf|]. split; [exact Hret|].
  apply (get_solve_stats_after_solve demo_ok (0%Z : ZScalar) 3 demo_ok_new Hwf Hret).
Defined.

Lemma covariance_vectors_decode_witness :
  has_shape (nx demo_ok) (nx demo_ok) (Sigma_x0 demo_ok) /\
  covariances_shaped (final (solve demo_ok (0%Z : ZScalar) 3 demo_ok_new)).
Proof.
  assert (has_shape (nx demo_ok) (nx demo_ok) (Sigma_x0 demo_ok)) as HS0.
  { split; [|done]. split; [reflexivity|]. repeat constructor. }
  split; [exact HS0|].
  destruct (covariance_vectors_decode demo_ok HS0 (fun st => eq_refl))
    as [Hinit Hsolve].
  destruct (Hinit 0 ([], [])) as [Hagree Hshaped].
  apply (Hsolve (0%Z : ZScalar) 3 demo_ok_new Hagree Hshaped).
Defined.

Lemma query_nodes_spec_witness :
  length (x_hat_all demo_ok_new) = N demo_ok + 1 /\
  x_hat_all (query_nodes demo_ok 0 demo_ok_new) !! 2 = x_hat_all demo_ok_new !! 2.
Proof.
  split; [reflexivity|].
  apply (query_nodes_spec demo_ok 0 demo_ok_new); reflexivity.
Defined.

Lemma solve_raises_iff_solver_failure_witness :
  wf_state demo_fail_new /\
  (raised (solve demo_fail (0%Z : ZScalar) 3 demo_fail_new) = Some (SolverFailure 4 1) <->
   exists it,
     last (trace (solve demo_fail (0%Z : ZScalar) 3 demo_fail_new)) = Some it /\
     status it <> 0%Z /\
     SolverFailure 4 1 =
     SolverFailure (status it)
       (length (trace (solve demo_fail (0%Z : ZScalar) 3 demo_fail_new)) - 1)).
Proof.
  assert (wf_state demo_fail_new) as Hwf by (repeat split; reflexivity).
  split; [exact Hwf|].
  apply (proj1 (solve_raises_iff_solver_failure demo_fail (0%Z : ZScalar) 3
                  demo_fail_new Hwf ltac:(lia))).
Defined.

Lemma delta_matches_previous_iteration_witness :
  wf_state demo_ok_new /\
  exists loc loc',
    stage_local demo_ok_run3 1 1 = Some loc /\
    stage_local demo_ok_run3 2 1 = Some loc' /\
    dP_bar_vec loc' = vec_sub (P_vec_stage loc') (P_vec_stage loc).
Proof.
  assert (wf_state demo_ok_new) as Hwf by (repeat split; reflexivity).
  split; [exact Hwf|].
  eexists _, _. split; [vm_compute; reflexivity|]. split; [vm_compute; reflexivity|].
  eapply (delta_matches_previous_iteration demo_ok (0%Z : ZScalar) 3 demo_ok_new 1 1).
  - exact Hwf.
  - vm_compute. reflexivity.
  - vm_compute. reflexivity.
  - lia.
  - vm_compute. reflexivity.
  - vm_compute. reflexivity.
Defined.


Lemma solve_unused_timings_zero_witness :
  wf_state demo_ok_new /\
  length (trace (solve demo_ok (2%Z : ZScalar) 3 demo_ok_new)) = 1 /\
  timing_at (final (solve demo_ok (2%Z : ZScalar) 3 demo_ok_new)) "total" 1 =
  Some (0%Z : ZScalar).
Proof.
  assert (wf_state demo_ok_new) as Hwf by (repeat split; reflexivity).
  split; [exact Hwf|]. split; [vm_compute; reflexivity|].
  apply (solve_unused_timings_zero demo_ok (2%Z : ZScalar) 3 demo_ok_new "total" 1 Hwf).
  - vm_compute. eexists. reflexivity.
  - vm_compute. lia.
  - lia.
Defined.


